(** * Planner: the query-plan builder of [Planner/Planner.cpp]

    A shallow embedding of [Planner::Optimizer] and of the plan nodes it
    builds, followed by the properties of the pipeline
    scans -> joins -> aggregates -> projection -> order by.

    Conventions of the embedding.
    - C++ [int] values (table ids, column ids, range-table indices, the
      aggregate count) are [Z]; a vector subscript with an index outside
      the vector is an explicit failure, not a silent no-op.
    - [throw std::runtime_error], a failing [assert] and the undefined
      behaviours the pipeline can reach (null dereference, subscript out
      of range, [front()] of an empty vector, read of an unset local) are
      the three constructors of [failure]; every stage returns a [result].
    - Pointers to heap nodes become values.  The pipeline creates one
      alias, [cur_plan = base_scans[0]]; the node is followed through
      [cur_plan], the only pointer the later stages and the caller read.
      When [process_targetlist] replaces the target list of that node in
      place, the copy kept in [base_scans] is the node as it was before
      the projection: nothing below is stated about [base_scans] after
      that stage.
    - The expression classes live in [Analyzer/], outside this unit: the
      virtual methods the planner calls are the fields of [ExprOps]. *)

From stdpp Require Import base list strings pretty.
From Stdlib Require Import ZArith Sorted Ascii.

Local Open Scope Z_scope.
Set Warnings "-register-all".

(** ** Failures and the result monad *)

Inductive undefined_behaviour :=
| NullDereference      (* member access through a null [Plan*] *)
| OutOfBounds          (* [v[i]] with [i] outside [v], [front()] of an empty vector *)
| UninitializedRead.   (* use of a local [int] that was never assigned *)

Inductive failure :=
| NotSupported (what : string)            (* [throw std::runtime_error(what)] *)
| AssertionFailed                          (* [assert(...)] aborts the process *)
| Undefined (ub : undefined_behaviour).

Inductive result (A : Type) :=
| Ok (a : A)
| Err (e : failure).
Arguments Ok {A} a.
Arguments Err {A} e.

Definition bind {A B} (c : result A) (k : A -> result B) : result B :=
  match c with
  | Ok a => k a
  | Err e => Err e
  end.

Notation "x <-- c ;; k" := (bind c (fun x => k))
  (at level 100, c at next level, right associativity).

Definition is_NotSupported (e : failure) : bool :=
  match e with NotSupported _ => true | _ => false end.

(** A fatal failure is one the caller cannot catch: an abort or undefined
    behaviour. *)
Definition is_fatal (e : failure) : bool := negb (is_NotSupported e).

(** [p == nullptr] on a pointer. *)
Definition is_nullptr {A} (p : option A) : bool :=
  match p with
  | None => true
  | Some _ => false
  end.

(** [v[i]] on a [std::vector] with an [int] index. *)
Definition vec_at {A} (v : list A) (i : Z) : result A :=
  if decide (0 <= i) then
    match v !! Z.to_nat i with
    | Some x => Ok x
    | None => Err (Undefined OutOfBounds)
    end
  else Err (Undefined OutOfBounds).

(** [v[i]->method(...)]: the element at [i] is mutated through its pointer. *)
Definition vec_update {A} (v : list A) (i : Z) (f : A -> A) : result (list A) :=
  _ <-- vec_at v i ;; Ok (alter f (Z.to_nat i) v).

(** ** [std::set] with a comparator

    A [std::set<T, Cmp>] is its elements in increasing order.  [insert]
    leaves the set unchanged when an equivalent element (neither less
    than the other) is already present; iteration is in list order. *)

Fixpoint set_insert {A} (lt : A -> A -> bool) (x : A) (s : list A) : list A :=
  match s with
  | [] => [x]
  | y :: s' =>
      if lt x y then x :: s
      else if lt y x then y :: set_insert lt x s'
      else s
  end.

Definition set_insert_all {A} (lt : A -> A -> bool) (xs : list A) (s : list A) : list A :=
  foldl (fun s x => set_insert lt x s) s xs.

(** ** The analyzed query (consumed from [Analyzer/Analyzer.h]) *)

Inductive SQLStmtType := kSELECT | kINSERT | kUPDATE | kDELETE.

Global Instance SQLStmtType_eq_dec : EqDecision SQLStmtType.
Proof. solve_decision. Defined.

Record ColumnDescriptor := mkColumnDescriptor {
  columnId : Z;
  columnName : string }.

Record RangeTblEntry := mkRangeTblEntry {
  get_table_id : Z;
  get_column_descs : list ColumnDescriptor }.

(** [Analyzer::ColumnVar]: a column of the table at range-table slot
    [get_rte_idx]. *)
Record ColumnVar := mkColumnVar {
  cv_table_id : Z;
  get_column_id : Z;
  get_rte_idx : Z }.

(** Modelled from the spec: [Analyzer::ColumnVar::colvar_comp] is declared
    in [Analyzer/Analyzer.h]; the planner hands it to [std::set] as the
    ordering that deduplicates column references by (table index, column
    id). *)
Definition colvar_comp (l r : ColumnVar) : bool :=
  bool_decide (get_rte_idx l < get_rte_idx r)
  || (bool_decide (get_rte_idx l = get_rte_idx r)
      && bool_decide (get_column_id l < get_column_id r)).

Record OrderEntry := mkOrderEntry {
  tle_no : Z;
  is_desc : bool;
  nulls_first : bool }.

Record TargetEntry (Expr : Type) := mkTargetEntry {
  get_resname : string;
  get_expr : Expr }.
Arguments mkTargetEntry {Expr} _ _.
Arguments get_resname {Expr} _.
Arguments get_expr {Expr} _.

(** The virtual interface of [Analyzer::Expr] as the planner uses it.
    - [group_predicates] returns the conjuncts it appends to the three
      lists it is handed: scan, join and constant predicates.
    - [normalize_simple_predicate] returns the normalized predicate with
      the range-table index written through its [int&] argument, or
      [None] for a null result.
    - [collect_rte_idx] and [collect_column_var] return, in traversal
      order, what they insert into the set they are handed. *)
Class ExprOps (Expr : Type) := {
  colvar_expr : ColumnVar -> Expr;
  deep_copy : Expr -> Expr;
  group_predicates : Expr -> list Expr * list Expr * list Expr;
  normalize_simple_predicate : Expr -> option (Z * Expr);
  collect_rte_idx : Expr -> list Z;
  collect_column_var : Expr -> list ColumnVar;
  rewrite_with_targetlist : Expr -> list (TargetEntry Expr) -> Expr;
  rewrite_with_child_targetlist : Expr -> list (TargetEntry Expr) -> Expr;
  rewrite_having_clause : Expr -> list (TargetEntry Expr) -> Expr }.

Inductive Query (Expr : Type) := mkQuery {
  get_stmt_type : SQLStmtType;
  get_rangetable : list RangeTblEntry;
  get_targetlist : list (TargetEntry Expr);
  get_where_predicate : option Expr;
  get_group_by : option (list Expr);
  get_having_predicate : option Expr;
  get_order_by : option (list OrderEntry);
  get_next_query : option (Query Expr);
  get_num_aggs : Z }.
Arguments mkQuery {Expr}.
Arguments get_stmt_type {Expr} _.
Arguments get_rangetable {Expr} _.
Arguments get_targetlist {Expr} _.
Arguments get_where_predicate {Expr} _.
Arguments get_group_by {Expr} _.
Arguments get_having_predicate {Expr} _.
Arguments get_order_by {Expr} _.
Arguments get_next_query {Expr} _.
Arguments get_num_aggs {Expr} _.

(** ** Plan nodes *)

Section PlanNodes.
Context {Expr : Type}.

(** The members a derived class adds to [Plan]. *)
Inductive PlanNode (P : Type) :=
| ResultNode (const_quals : list Expr)
| ScanNode (simple_quals : list Expr) (table_id : Z) (col_list : list Z)
| ValuesScanNode
| JoinNode (child_plan2 : P)
| AggPlanNode (groupby_list : list Expr)
| AppendNode (plan_list : list P)
| MergeAppendNode (mergeplan_list : list P)
| SortNode (order_entries : list OrderEntry).

(** [class Plan]: the base members, and the derived part in [node]. *)
Inductive Plan := mkPlan {
  targetlist : list (TargetEntry Expr);
  quals : list Expr;
  cost : Z;
  child_plan : option Plan;
  node : PlanNode Plan }.

Definition set_targetlist (p : Plan) (t : list (TargetEntry Expr)) : Plan :=
  mkPlan t (quals p) (cost p) (child_plan p) (node p).

(** [class Scan], as the element type of [base_scans]. *)
Record Scan := mkScan {
  scan_targetlist : list (TargetEntry Expr);
  scan_quals : list Expr;
  scan_cost : Z;
  simple_quals : list Expr;
  table_id : Z;
  col_list : list Z }.

(** [Scan::Scan(const RangeTblEntry&)], over the default [Plan()] (no
    target entry, no qual, cost 0, no child). *)
Definition Scan_of_rte (rte : RangeTblEntry) : Scan :=
  {| scan_targetlist := [];
     scan_quals := [];
     scan_cost := 0;
     simple_quals := [];
     table_id := get_table_id rte;
     col_list := columnId <$> get_column_descs rte |}.

(** Modelled from the spec: the inline members [Scan::add_simple_predicate],
    [Plan::add_predicate] and [Plan::add_tle] of [Planner.h] attach their
    argument at the end of the list they name. *)
Definition add_simple_predicate (e : Expr) (s : Scan) : Scan :=
  {| scan_targetlist := scan_targetlist s;
     scan_quals := scan_quals s;
     scan_cost := scan_cost s;
     simple_quals := simple_quals s ++ [e];
     table_id := table_id s;
     col_list := col_list s |}.

Definition add_predicate (e : Expr) (s : Scan) : Scan :=
  {| scan_targetlist := scan_targetlist s;
     scan_quals := scan_quals s ++ [e];
     scan_cost := scan_cost s;
     simple_quals := simple_quals s;
     table_id := table_id s;
     col_list := col_list s |}.

Definition add_tle (tle : TargetEntry Expr) (s : Scan) : Scan :=
  {| scan_targetlist := scan_targetlist s ++ [tle];
     scan_quals := scan_quals s;
     scan_cost := scan_cost s;
     simple_quals := simple_quals s;
     table_id := table_id s;
     col_list := col_list s |}.

(** The conversion [Scan*] to [Plan*]; a scan has no child. *)
Definition Plan_of_Scan (s : Scan) : Plan :=
  mkPlan (scan_targetlist s) (scan_quals s) (scan_cost s) None
         (ScanNode Plan (simple_quals s) (table_id s) (col_list s)).

(** Modelled from the spec: the constructors [ValuesScan(tlist)] and
    [AggPlan(tlist, quals, cost, child, groupby_list)] of [Planner.h]
    store their arguments in the members of the same name. *)
Definition ValuesScan (t : list (TargetEntry Expr)) : Plan :=
  mkPlan t [] 0 None (ValuesScanNode Plan).

Definition AggPlan (t : list (TargetEntry Expr)) (q : list Expr) (c : Z)
           (p : option Plan) (gl : list Expr) : Plan :=
  mkPlan t q c p (AggPlanNode Plan gl).

Record RootPlan := mkRootPlan {
  get_plan : option Plan;
  root_stmt_type : SQLStmtType;
  get_result_table_id : Z;
  get_result_col_list : list Z }.

(** The number of [child_plan] links below a node. *)
Fixpoint plan_depth (p : Plan) : nat :=
  match p with
  | mkPlan _ _ _ c _ =>
      match c with
      | Some p' => S (plan_depth p')
      | None => O
      end
  end.
End PlanNodes.

Arguments PlanNode : clear implicits.
Arguments Plan : clear implicits.
Arguments Scan : clear implicits.
Arguments RootPlan : clear implicits.

(** ** The optimizer *)

(** [for (auto x : xs) body], where the body may fail. *)
Fixpoint for_each {A S} (body : S -> A -> result S) (xs : list A) (s : S) : result S :=
  match xs with
  | [] => Ok s
  | x :: xs' => s' <-- body s x ;; for_each body xs' s'
  end.

(** A loop that pushes one computed element per iteration. *)
Fixpoint push_each {A B} (body : A -> result B) (xs : list A) : result (list B) :=
  match xs with
  | [] => Ok []
  | x :: xs' => y <-- body x ;; ys <-- push_each body xs' ;; Ok (y :: ys)
  end.

Section Optimizer.
Context {Expr : Type} `{ExprOps Expr}.

(** The members of [class Optimizer] that change during planning; the
    member [query] is the argument [q] of every stage, and [cur_query]
    is set to [&query] before any stage reads it. *)
Record Optimizer := mkOptimizer {
  cur_plan : option (Plan Expr);
  base_scans : list (Scan Expr);
  join_predicates : list Expr;
  const_predicates : list Expr }.

Definition set_cur_plan (o : Optimizer) (p : option (Plan Expr)) : Optimizer :=
  mkOptimizer p (base_scans o) (join_predicates o) (const_predicates o).

(** Modelled from the spec: the constructor is declared in [Planner.h]; a
    new optimizer has planned nothing and its containers are empty.
    [cur_plan] is assigned by [optimize_joins] before any stage reads it. *)
Definition Optimizer_init : Optimizer := mkOptimizer None [] [] [].

(** [cur_plan->get_targetlist()]. *)
Definition cur_plan_targetlist (o : Optimizer) : result (list (TargetEntry Expr)) :=
  match cur_plan o with
  | Some p => Ok (targetlist p)
  | None => Err (Undefined NullDereference)
  end.

(** *** optimize_scans *)

(** First loop: one [Scan] per range-table entry, except the first entry
    of an INSERT. *)
Fixpoint build_base_scans (stmt : SQLStmtType) (first : bool)
         (rt : list RangeTblEntry) (scans : list (Scan Expr)) : list (Scan Expr) :=
  match rt with
  | [] => scans
  | rte :: rt' =>
      if first && bool_decide (stmt = kINSERT)
      then build_base_scans stmt false rt' scans
      else build_base_scans stmt first rt' (scans ++ [Scan_of_rte rte])
  end.

(** [std::set<int> rte_idx_set; p->collect_rte_idx(rte_idx_set);] followed
    by the loop that takes the first element of the set and breaks.  With
    an empty set the loop body never runs and [rte_idx], declared without
    an initializer, is used as the failed normalization left it; that use
    is the [UninitializedRead] failure. *)
Definition first_rte_idx (p : Expr) : result Z :=
  match set_insert_all Z.ltb (collect_rte_idx p) [] with
  | x :: _ => Ok x
  | [] => Err (Undefined UninitializedRead)
  end.

(** Body of the loop over [scan_predicates]. *)
Definition attach_scan_predicate (scans : list (Scan Expr)) (p : Expr)
  : result (list (Scan Expr)) :=
  match normalize_simple_predicate p with
  | Some (rte_idx, simple_pred) =>
      vec_update scans rte_idx (add_simple_predicate simple_pred)
  | None =>
      rte_idx <-- first_rte_idx p ;;
      vec_update scans rte_idx (add_predicate (deep_copy p))
  end.

(** [e->collect_column_var(colvar_set)]. *)
Definition collect_into (colvar_set : list ColumnVar) (e : Expr) : list ColumnVar :=
  set_insert_all colvar_comp (collect_column_var e) colvar_set.

(** The four collection loops over the target list, the join predicates,
    the group-by list and the HAVING predicate. *)
Definition collect_colvar_set (q : Query Expr) (join_preds : list Expr) : list ColumnVar :=
  let s := foldl (fun s tle => collect_into s (get_expr tle)) [] (get_targetlist q) in
  let s := foldl collect_into s join_preds in
  let s := match get_group_by q with
           | Some group_by => foldl collect_into s group_by
           | None => s
           end in
  match get_having_predicate q with
  | Some having_pred => collect_into s having_pred
  | None => s
  end.

(** Body of the loop over [colvar_set]. *)
Definition scan_tle (colvar : ColumnVar) : TargetEntry Expr :=
  mkTargetEntry "" (deep_copy (colvar_expr colvar)).

Definition attach_colvar (scans : list (Scan Expr)) (colvar : ColumnVar)
  : result (list (Scan Expr)) :=
  vec_update scans (get_rte_idx colvar) (add_tle (scan_tle colvar)).

(** The conjuncts handed back by [where_pred->group_predicates(...)]; a
    null WHERE leaves the three lists as they were. *)
Definition where_groups (q : Query Expr) : list Expr * list Expr * list Expr :=
  match get_where_predicate q with
  | Some where_pred => group_predicates where_pred
  | None => ([], [], [])
  end.

Definition optimize_scans (q : Query Expr) (o : Optimizer) : result Optimizer :=
  let scans0 := build_base_scans (get_stmt_type q) true (get_rangetable q) (base_scans o) in
  let '(scan_predicates, jp, cp) := where_groups q in
  let join_preds := join_predicates o ++ jp in
  let const_preds := const_predicates o ++ cp in
  scans1 <-- for_each attach_scan_predicate scan_predicates scans0 ;;
  scans2 <-- for_each attach_colvar (collect_colvar_set q join_preds) scans1 ;;
  Ok (mkOptimizer (cur_plan o) scans2 join_preds const_preds).

(** *** optimize_joins *)

Definition optimize_joins (o : Optimizer) : result Optimizer :=
  if decide (length (base_scans o) = 0%nat) then Ok (set_cur_plan o None)
  else if decide (length (base_scans o) = 1%nat) then
    s <-- vec_at (base_scans o) 0 ;;
    Ok (set_cur_plan o (Some (Plan_of_Scan s)))
  else Err (NotSupported "joins are not supported yet.").

(** *** optimize_aggs *)

(** [having_pred->group_predicates(preds, others, others); assert(others.empty());]
    then the loop that rewrites every conjunct of [preds]. *)
Definition having_quals_of (q : Query Expr) (agg_tlist : list (TargetEntry Expr))
  : result (list Expr) :=
  match get_having_predicate q with
  | Some having_pred =>
      let '(preds, jp, cp) := group_predicates having_pred in
      let others := jp ++ cp in
      match others with
      | [] => Ok ((fun p => rewrite_having_clause p agg_tlist) <$> preds)
      | _ :: _ => Err AssertionFailed
      end
  | None => Ok []
  end.

Definition optimize_aggs (q : Query Expr) (o : Optimizer) : result Optimizer :=
  if bool_decide (get_num_aggs q = 0) && is_nullptr (get_having_predicate q)
  then Ok o
  else
    agg_tlist <-- push_each (fun tle =>
        child_tlist <-- cur_plan_targetlist o ;;
        Ok (mkTargetEntry (get_resname tle)
              (rewrite_with_child_targetlist (get_expr tle) child_tlist)))
      (get_targetlist q) ;;
    groupby_list <-- match get_group_by q with
                     | Some group_by =>
                         push_each (fun e =>
                             child_tlist <-- cur_plan_targetlist o ;;
                             Ok (rewrite_with_child_targetlist e child_tlist))
                           group_by
                     | None => Ok []
                     end ;;
    having_quals <-- having_quals_of q agg_tlist ;;
    Ok (set_cur_plan o (Some (AggPlan agg_tlist having_quals 0 (cur_plan o) groupby_list))).

(** *** process_targetlist

    The node whose target list is replaced is the one [cur_plan] points
    to.  When that node is also [base_scans[0]] the C++ object is shared;
    here the new target list is visible through [cur_plan] only. *)

Definition process_targetlist (q : Query Expr) (o : Optimizer) : Optimizer :=
  let final_tlist :=
    (fun tle =>
       match cur_plan o with
       | None => mkTargetEntry (get_resname tle) (deep_copy (get_expr tle))
       | Some p =>
           mkTargetEntry (get_resname tle)
             (rewrite_with_targetlist (get_expr tle) (targetlist p))
       end) <$> get_targetlist q in
  match cur_plan o with
  | None => set_cur_plan o (Some (ValuesScan final_tlist))
  | Some p => set_cur_plan o (Some (set_targetlist p final_tlist))
  end.

(** *** optimize_orderby, optimize_current_query, optimize_query, optimize *)

Definition optimize_orderby (q : Query Expr) (o : Optimizer) : result Optimizer :=
  if is_nullptr (get_order_by q) then Ok o
  else Err (NotSupported "order by not supported yet.").

Definition optimize_current_query (q : Query Expr) (o : Optimizer) : result Optimizer :=
  o1 <-- optimize_scans q o ;;
  o2 <-- optimize_joins o1 ;;
  o3 <-- optimize_aggs q o2 ;;
  Ok (process_targetlist q o3).

Definition optimize_query (q : Query Expr) (o : Optimizer) : result (option (Plan Expr)) :=
  if is_nullptr (get_next_query q) then
    o1 <-- optimize_current_query q o ;;
    o2 <-- (if is_nullptr (get_order_by q) then Ok o1 else optimize_orderby q o1) ;;
    Ok (cur_plan o2)
  else Err (NotSupported "UNION queries are not supported yet.").

(** The [switch] on the statement type: the destination table id and
    column ids handed to [RootPlan]. *)
Definition result_table (q : Query Expr) : result (Z * list Z) :=
  match get_stmt_type q with
  | kSELECT => Ok (0, [])
  | kINSERT =>
      match get_rangetable q with
      | result_rte :: _ =>
          Ok (get_table_id result_rte, columnId <$> get_column_descs result_rte)
      | [] => Err (Undefined OutOfBounds)
      end
  | kUPDATE | kDELETE => Err AssertionFailed
  end.

Definition optimize (q : Query Expr) : result (RootPlan Expr) :=
  dest <-- result_table q ;;
  plan <-- optimize_query q Optimizer_init ;;
  Ok (mkRootPlan plan (get_stmt_type q) (fst dest) (snd dest)).

End Optimizer.

Arguments Optimizer : clear implicits.

(** ** A reference implementation of the expression interface

    Modelled from the spec: the expression classes of [Analyzer/] are not
    part of this unit.  [Sql.Expr] is a small expression language with the
    capabilities the spec lists for the expression collaborator: three-way
    predicate decomposition over the top-level AND, normalization of a
    column-versus-constant comparison, collection of range-table indices
    and of column references, deep copy, and rewriting of column
    references and aggregates into output positions of a target list.
    The theorems about the optimizer hold for every [ExprOps]; this
    instance supplies the concrete queries they are exercised on. *)
Module Sql.

Inductive SQLOps := kEQ | kNE | kLT | kGT | kLE | kGE | kAND | kOR | kPLUS | kMINUS.

Inductive SQLAgg := kCOUNT | kSUM | kMIN | kMAX.

Inductive Expr :=
| ColVar (cv : ColumnVar)
| Var (varno : Z)                       (* output position of a target list, from 1 *)
| Constant (v : Z)
| BinOper (op : SQLOps) (l r : Expr)
| AggExpr (agg : SQLAgg) (arg : option Expr).   (* no argument: COUNT of all rows *)

Global Instance SQLOps_eq_dec : EqDecision SQLOps.
Proof. solve_decision. Defined.

Global Instance SQLAgg_eq_dec : EqDecision SQLAgg.
Proof. solve_decision. Defined.

Definition same_column (a b : ColumnVar) : bool :=
  negb (colvar_comp a b) && negb (colvar_comp b a).

Fixpoint expr_eqb (a b : Expr) : bool :=
  match a, b with
  | ColVar x, ColVar y => same_column x y
  | Var i, Var j => bool_decide (i = j)
  | Constant v, Constant w => bool_decide (v = w)
  | BinOper o l r, BinOper o' l' r' =>
      bool_decide (o = o') && expr_eqb l l' && expr_eqb r r'
  | AggExpr g x, AggExpr g' y =>
      bool_decide (g = g')
      && match x, y with
         | Some x', Some y' => expr_eqb x' y'
         | None, None => true
         | _, _ => false
         end
  | _, _ => false
  end.

Fixpoint column_vars (e : Expr) : list ColumnVar :=
  match e with
  | ColVar cv => [cv]
  | Var _ | Constant _ => []
  | BinOper _ l r => column_vars l ++ column_vars r
  | AggExpr _ arg =>
      match arg with
      | Some a => column_vars a
      | None => []
      end
  end.

Definition rte_idxs (e : Expr) : list Z := get_rte_idx <$> column_vars e.

(** One conjunct goes to the scan, join or constant group by the number
    of distinct range-table indices it references. *)
Definition classify (e : Expr) : list Expr * list Expr * list Expr :=
  match set_insert_all Z.ltb (rte_idxs e) [] with
  | [] => ([], [], [e])
  | [_] => ([e], [], [])
  | _ :: _ :: _ => ([], [e], [])
  end.

Fixpoint conjuncts (e : Expr) : list Expr * list Expr * list Expr :=
  match e with
  | BinOper kAND l r =>
      let '(s1, j1, c1) := conjuncts l in
      let '(s2, j2, c2) := conjuncts r in
      (s1 ++ s2, j1 ++ j2, c1 ++ c2)
  | _ => classify e
  end.

Definition is_comparison (op : SQLOps) : bool :=
  match op with
  | kEQ | kNE | kLT | kGT | kLE | kGE => true
  | _ => false
  end.

Definition commute (op : SQLOps) : SQLOps :=
  match op with
  | kLT => kGT
  | kGT => kLT
  | kLE => kGE
  | kGE => kLE
  | o => o
  end.

Definition normalize (e : Expr) : option (Z * Expr) :=
  match e with
  | BinOper op (ColVar cv) (Constant c) =>
      if is_comparison op then Some (get_rte_idx cv, e) else None
  | BinOper op (Constant c) (ColVar cv) =>
      if is_comparison op
      then Some (get_rte_idx cv, BinOper (commute op) (ColVar cv) (Constant c))
      else None
  | _ => None
  end.

(** The position, counted from [n], of the first entry whose expression
    is [e]. *)
Fixpoint position (e : Expr) (tlist : list (TargetEntry Expr)) (n : Z) : option Z :=
  match tlist with
  | [] => None
  | tle :: tl => if expr_eqb e (get_expr tle) then Some n else position e tl (n + 1)
  end.

Fixpoint rewrite_columns (e : Expr) (tlist : list (TargetEntry Expr)) : Expr :=
  match e with
  | ColVar cv =>
      match position e tlist 1 with
      | Some n => Var n
      | None => e
      end
  | Var _ | Constant _ => e
  | BinOper op l r => BinOper op (rewrite_columns l tlist) (rewrite_columns r tlist)
  | AggExpr g arg =>
      AggExpr g match arg with
                | Some a => Some (rewrite_columns a tlist)
                | None => None
                end
  end.

Fixpoint rewrite_outputs (e : Expr) (tlist : list (TargetEntry Expr)) : Expr :=
  match position e tlist 1 with
  | Some n => Var n
  | None =>
      match e with
      | BinOper op l r => BinOper op (rewrite_outputs l tlist) (rewrite_outputs r tlist)
      | _ => e
      end
  end.

Global Instance ops : ExprOps Expr := {|
  colvar_expr := ColVar;
  deep_copy := fun e => e;
  group_predicates := conjuncts;
  normalize_simple_predicate := normalize;
  collect_rte_idx := rte_idxs;
  collect_column_var := column_vars;
  rewrite_with_targetlist := rewrite_columns;
  rewrite_with_child_targetlist := rewrite_columns;
  rewrite_having_clause := rewrite_outputs |}.

(** Two tables, [t] (id 7, columns 1 and 2) and [u] (id 9, columns 1 and
    2), and the column references used by the sample queries. *)
Definition t : RangeTblEntry :=
  mkRangeTblEntry 7 [mkColumnDescriptor 1 "a"; mkColumnDescriptor 2 "b"].
Definition u : RangeTblEntry :=
  mkRangeTblEntry 9 [mkColumnDescriptor 1 "x"; mkColumnDescriptor 2 "y"].

Definition t_a : ColumnVar := mkColumnVar 7 1 0.
Definition t_b : ColumnVar := mkColumnVar 7 2 0.

Definition select (rt : list RangeTblEntry) (tlist : list (TargetEntry Expr))
           (where_pred : option Expr) : Query Expr :=
  mkQuery kSELECT rt tlist where_pred None None None None 0.

Definition u_x : ColumnVar := mkColumnVar 9 1 1.

Definition a_gt_5 : Expr := BinOper kGT (ColVar t_a) (Constant 5).
Definition a_plus_b_eq_3 : Expr :=
  BinOper kEQ (BinOper kPLUS (ColVar t_a) (ColVar t_b)) (Constant 3).
Definition one_eq_one : Expr := BinOper kEQ (Constant 1) (Constant 1).
Definition count_all : Expr := AggExpr kCOUNT None.

(** SELECT a FROM t WHERE a > 5 AND a + b = 3 *)
Definition where_query : Query Expr :=
  select [t] [mkTargetEntry "a" (ColVar t_a)] (Some (BinOper kAND a_gt_5 a_plus_b_eq_3)).

(** SELECT b, COUNT FROM t GROUP BY b HAVING SUM(a) > 10 *)
Definition group_query : Query Expr :=
  mkQuery kSELECT [t]
          [mkTargetEntry "b" (ColVar t_b); mkTargetEntry "n" count_all]
          None (Some [ColVar t_b])
          (Some (BinOper kGT (AggExpr kSUM (Some (ColVar t_a))) (Constant 10)))
          None None 1.

(** SELECT a FROM t WHERE a > 5 *)
Definition simple_query : Query Expr :=
  select [t] [mkTargetEntry "a" (ColVar t_a)] (Some a_gt_5).

(** SELECT COUNT of all rows FROM t GROUP BY b *)
Definition count_by_b : Query Expr :=
  mkQuery kSELECT [t] [mkTargetEntry "n" count_all] None (Some [ColVar t_b])
          None None None 1.

(** SELECT a FROM t WHERE a > 5 AND 1 = 1 *)
Definition simple_query_and_constant : Query Expr :=
  select [t] [mkTargetEntry "a" (ColVar t_a)] (Some (BinOper kAND a_gt_5 one_eq_one)).

(** SELECT 1 + 1 *)
Definition constant_query : Query Expr :=
  select [] [mkTargetEntry "" (BinOper kPLUS (Constant 1) (Constant 1))] None.

(** INSERT INTO t VALUES (1, 2) *)
Definition insert_values : Query Expr :=
  mkQuery kINSERT [t]
          [mkTargetEntry "" (Constant 1); mkTargetEntry "" (Constant 2)]
          None None None None None 0.

(** INSERT INTO t SELECT x FROM u: [u] is at range-table index 1. *)
Definition insert_select : Query Expr :=
  mkQuery kINSERT [t; u] [mkTargetEntry "x" (ColVar u_x)] None None None None None 0.

(** INSERT INTO t SELECT 1, 2 FROM u *)
Definition insert_from_u : Query Expr :=
  mkQuery kINSERT [t; u]
          [mkTargetEntry "" (Constant 1); mkTargetEntry "" (Constant 2)]
          None None None None None 0.

(** A third table, [v] (id 11, columns 1 and 2). *)
Definition v : RangeTblEntry :=
  mkRangeTblEntry 11 [mkColumnDescriptor 1 "p"; mkColumnDescriptor 2 "q"].

Definition x_gt_5 : Expr := BinOper kGT (ColVar u_x) (Constant 5).
Definition a_eq_x : Expr := BinOper kEQ (ColVar t_a) (ColVar u_x).

(** INSERT INTO t SELECT 1 FROM u, v WHERE u.x > 5: [u] is at range-table
    index 1 and [v] at index 2. *)
Definition insert_filtered : Query Expr :=
  mkQuery kINSERT [t; u; v] [mkTargetEntry "" (Constant 1)] (Some x_gt_5)
          None None None None 0.

(** INSERT INTO t SELECT u.x FROM u, v *)
Definition insert_two_sources : Query Expr :=
  mkQuery kINSERT [t; u; v] [mkTargetEntry "x" (ColVar u_x)] None
          None None None None 0.

(** SELECT t.a FROM t, u WHERE t.a = u.x *)
Definition join_query : Query Expr :=
  select [t; u] [mkTargetEntry "a" (ColVar t_a)] (Some a_eq_x).

(** SELECT COUNT of all rows, with no FROM clause *)
Definition count_without_from : Query Expr :=
  mkQuery kSELECT [] [mkTargetEntry "n" count_all] None None None None None 1.

(** SELECT a FROM t HAVING 1 = 1 *)
Definition having_constant : Query Expr :=
  mkQuery kSELECT [t] [mkTargetEntry "a" (ColVar t_a)] None None (Some one_eq_one)
          None None 0.

(** SELECT a FROM t, u HAVING t.a = u.x *)
Definition having_cross_table : Query Expr :=
  mkQuery kSELECT [t; u] [mkTargetEntry "a" (ColVar t_a)] None None
          (Some (BinOper kEQ (ColVar t_a) (ColVar u_x))) None None 0.

(** SELECT a FROM t ORDER BY 1 *)
Definition order_by_query : Query Expr :=
  mkQuery kSELECT [t] [mkTargetEntry "a" (ColVar t_a)] None None None
          (Some [mkOrderEntry 1 false false]) None 0.

(** SELECT a FROM t HAVING 1 = 1 ORDER BY 1 *)
Definition order_by_having_constant : Query Expr :=
  mkQuery kSELECT [t] [mkTargetEntry "a" (ColVar t_a)] None None (Some one_eq_one)
          (Some [mkOrderEntry 1 false false]) None 0.

End Sql.

(** ** Specification-level views of the scan stage

    Both loops of [optimize_scans] that touch [base_scans] have the shape
    "compute an index and a mutation from the loop variable, then apply
    the mutation to the element at that index".  [update_step] is that
    shape; [apply_at] is what one iteration does to the element at a
    given index. *)

Section UpdateLoopDefs.
Context {A S : Type} (target : A -> result (Z * (S -> S))).

Definition update_step (v : list S) (x : A) : result (list S) :=
  t <-- target x ;; vec_update v (fst t) (snd t).

Definition apply_at (i : nat) (s : S) (x : A) : S :=
  match target x with
  | Ok (j, f) => if decide (j = Z.of_nat i) then f s else s
  | Err _ => s
  end.

End UpdateLoopDefs.

(** The key [colvar_comp] orders by, and the strict order as a relation. *)
Definition colvar_key (cv : ColumnVar) : Z * Z := (get_rte_idx cv, get_column_id cv).

Definition colvar_lt (a b : ColumnVar) : Prop := colvar_comp a b = true.

Section ScanStageSpec.
Context {Expr : Type} `{ExprOps Expr}.

(** The index and the mutation chosen by [attach_scan_predicate]. *)
Definition pred_target (p : Expr) : result (Z * (Scan Expr -> Scan Expr)) :=
  match normalize_simple_predicate p with
  | Some (rte_idx, simple_pred) => Ok (rte_idx, add_simple_predicate simple_pred)
  | None => rte_idx <-- first_rte_idx p ;; Ok (rte_idx, add_predicate (deep_copy p))
  end.

(** The index and the mutation chosen by [attach_colvar]. *)
Definition colvar_target (cv : ColumnVar) : result (Z * (Scan Expr -> Scan Expr)) :=
  Ok (get_rte_idx cv, add_tle (scan_tle cv)).

(** The scan predicates of the WHERE clause. *)
Definition scan_predicates (q : Query Expr) : list Expr := fst (fst (where_groups q)).

(** The normalized predicates that name index [i], in predicate order. *)
Definition simple_quals_for (i : Z) (preds : list Expr) : list Expr :=
  omap (fun p =>
          match normalize_simple_predicate p with
          | Some (j, simple_pred) => if decide (j = i) then Some simple_pred else None
          | None => None
          end) preds.

(** The deep copies of the predicates that fail normalization and whose
    index set starts with [i], in predicate order. *)
Definition quals_for (i : Z) (preds : list Expr) : list Expr :=
  omap (fun p =>
          match normalize_simple_predicate p with
          | Some _ => None
          | None =>
              match first_rte_idx p with
              | Ok j => if decide (j = i) then Some (deep_copy p) else None
              | Err _ => None
              end
          end) preds.

(** Every column reference the collection loops visit, in visiting order. *)
Definition referenced_column_vars (q : Query Expr) (join_preds : list Expr)
  : list ColumnVar :=
  concat ((fun tle => collect_column_var (get_expr tle)) <$> get_targetlist q)
  ++ concat (collect_column_var <$> join_preds)
  ++ match get_group_by q with
     | Some group_by => concat (collect_column_var <$> group_by)
     | None => []
     end
  ++ match get_having_predicate q with
     | Some having_pred => collect_column_var having_pred
     | None => []
     end.

(** The scan stage stays within [base_scans]: every scan predicate yields
    an index, and every index used for attachment is a valid subscript. *)
Definition scan_stage_in_bounds (q : Query Expr) : Prop :=
  let n := Z.of_nat (length (build_base_scans (Expr:=Expr) (get_stmt_type q) true
                                              (get_rangetable q) [])) in
  (forall p, p ∈ scan_predicates q ->
             exists i f, pred_target p = Ok (i, f) /\ 0 <= i < n) /\
  (forall cv, cv ∈ referenced_column_vars q (snd (fst (where_groups q))) ->
              0 <= get_rte_idx cv < n).

End ScanStageSpec.

(** The range-table entries that receive a base scan. *)
Definition scanned_entries {Expr} (q : Query Expr) : list RangeTblEntry :=
  if bool_decide (get_stmt_type q = kINSERT) then tail (get_rangetable q)
  else get_rangetable q.

(** The target entries appended for the column references of index [i]. *)
Definition tles_for {Expr} `{ExprOps Expr} (i : Z) (cvs : list ColumnVar)
  : list (TargetEntry Expr) :=
  scan_tle <$> filter (fun cv => get_rte_idx cv = i) cvs.

(** The scan the stage leaves at index [i] of [base_scans], built from
    range-table entry [rte]. *)
Definition planned_scan {Expr} `{ExprOps Expr} (q : Query Expr) (i : nat)
           (rte : RangeTblEntry) : Scan Expr :=
  {| scan_targetlist :=
       tles_for (Z.of_nat i) (collect_colvar_set q (snd (fst (where_groups q))));
     scan_quals := quals_for (Z.of_nat i) (scan_predicates q);
     scan_cost := 0;
     simple_quals := simple_quals_for (Z.of_nat i) (scan_predicates q);
     table_id := get_table_id rte;
     col_list := columnId <$> get_column_descs rte |}.

(** ** Specification-level views of the aggregation and projection stages *)

Section LaterStagesSpec.
Context {Expr : Type} `{ExprOps Expr}.

(** The aggregation stage is skipped. *)
Definition no_aggregation (q : Query Expr) : Prop :=
  get_num_aggs q = 0 /\ get_having_predicate q = None.

(** The query target list rewritten against a child's target list,
    output names kept. *)
Definition agg_targetlist (q : Query Expr) (child_tlist : list (TargetEntry Expr))
  : list (TargetEntry Expr) :=
  (fun tle => mkTargetEntry (get_resname tle)
                (rewrite_with_child_targetlist (get_expr tle) child_tlist))
    <$> get_targetlist q.

(** The group-by list rewritten against a child's target list. *)
Definition agg_groupby (q : Query Expr) (child_tlist : list (TargetEntry Expr))
  : list Expr :=
  match get_group_by q with
  | Some group_by => (fun e => rewrite_with_child_targetlist e child_tlist) <$> group_by
  | None => []
  end.

(** The scan-classified HAVING conjuncts rewritten against the
    aggregated target list. *)
Definition agg_having (q : Query Expr) (agg_tlist : list (TargetEntry Expr))
  : list Expr :=
  match get_having_predicate q with
  | Some having_pred =>
      (fun p => rewrite_having_clause p agg_tlist) <$> fst (fst (group_predicates having_pred))
  | None => []
  end.

(** The join- and constant-classified conjuncts of the HAVING predicate. *)
Definition having_others (q : Query Expr) : list Expr :=
  match get_having_predicate q with
  | Some having_pred =>
      snd (fst (group_predicates having_pred)) ++ snd (group_predicates having_pred)
  | None => []
  end.

(** The target list of the current plan, empty when there is none. *)
Definition child_targetlist (o : Optimizer Expr) : list (TargetEntry Expr) :=
  match cur_plan o with
  | Some p => targetlist p
  | None => []
  end.

(** The [AggPlan] the stage builds over the current plan of [o]. *)
Definition planned_agg (q : Query Expr) (o : Optimizer Expr) : Plan Expr :=
  AggPlan (agg_targetlist q (child_targetlist o))
          (agg_having q (agg_targetlist q (child_targetlist o)))
          0
          (cur_plan o)
          (agg_groupby q (child_targetlist o)).

(** The final target list without a plan: deep copies. *)
Definition copied_targetlist (q : Query Expr) : list (TargetEntry Expr) :=
  (fun tle => mkTargetEntry (get_resname tle) (deep_copy (get_expr tle)))
    <$> get_targetlist q.

(** The final target list over a plan: rewritten against its target list. *)
Definition rewritten_targetlist (q : Query Expr) (p : Plan Expr)
  : list (TargetEntry Expr) :=
  (fun tle => mkTargetEntry (get_resname tle)
                (rewrite_with_targetlist (get_expr tle) (targetlist p)))
    <$> get_targetlist q.

End LaterStagesSpec.

(** ** The plan of a query in closed form

    The outcome of the whole pipeline written without the optimizer
    state: which scans the scan stage leaves, which plan each later stage
    builds over them, and the conditions under which every stage
    completes. *)

Section PlanningSpec.
Context {Expr : Type} `{ExprOps Expr}.

(** [base_scans] after the scan stage. *)
Definition planned_base_scans (q : Query Expr) : list (Scan Expr) :=
  imap (planned_scan q) (scanned_entries q).

(** The current plan after join assembly over at most one base scan. *)
Definition joined_plan (q : Query Expr) : option (Plan Expr) :=
  match scanned_entries q with
  | rte :: _ => Some (Plan_of_Scan (planned_scan q 0 rte))
  | [] => None
  end.

(** The [AggPlan] built over [child] (null or not). *)
Definition agg_over (q : Query Expr) (child : option (Plan Expr)) : Plan Expr :=
  let child_tlist := match child with
                     | Some p => targetlist p
                     | None => []
                     end in
  AggPlan (agg_targetlist q child_tlist)
          (agg_having q (agg_targetlist q child_tlist))
          0 child
          (agg_groupby q child_tlist).

(** The current plan after the aggregation stage. *)
Definition aggregated_plan (q : Query Expr) : option (Plan Expr) :=
  if bool_decide (get_num_aggs q = 0) && is_nullptr (get_having_predicate q)
  then joined_plan q
  else Some (agg_over q (joined_plan q)).

(** The current plan after the final projection. *)
Definition projected_plan (q : Query Expr) (cur : option (Plan Expr)) : Plan Expr :=
  match cur with
  | Some p => set_targetlist p (rewritten_targetlist q p)
  | None => ValuesScan (copied_targetlist q)
  end.

Definition planned_plan (q : Query Expr) : Plan Expr :=
  projected_plan q (aggregated_plan q).

(** The group-by list is null or empty: its rewriting loop never runs. *)
Definition no_group_by (q : Query Expr) : Prop :=
  get_group_by q = None \/ get_group_by q = Some [].

(** The aggregation stage completes over the plan join assembly leaves:
    it is skipped, or the HAVING predicate has scan-classified conjuncts
    only and the current plan is either present or never read. *)
Definition aggregation_defined (q : Query Expr) : Prop :=
  no_aggregation q \/
  (having_others q = [] /\
   (scanned_entries q <> [] \/ (get_targetlist q = [] /\ no_group_by q))).

(** The four stages of [optimize_current_query] complete. *)
Definition stages_defined (q : Query Expr) : Prop :=
  scan_stage_in_bounds q /\
  (length (scanned_entries q) <= 1)%nat /\
  aggregation_defined q.

(** The statement kind has a destination the [switch] of [optimize] can
    read: SELECT, or INSERT with a first range-table entry. *)
Definition has_destination (q : Query Expr) : Prop :=
  get_stmt_type q = kSELECT \/
  (get_stmt_type q = kINSERT /\ get_rangetable q <> []).

(** [optimize] returns a plan. *)
Definition plannable (q : Query Expr) : Prop :=
  has_destination q /\
  get_next_query q = None /\
  get_order_by q = None /\
  stages_defined q.

End PlanningSpec.

(** The three messages of the runtime errors the planner throws. *)
Definition union_not_supported : string := "UNION queries are not supported yet.".
Definition joins_not_supported : string := "joins are not supported yet.".
Definition order_by_not_supported : string := "order by not supported yet.".

(** Every way [optimize] can end, in the order the code reaches them. *)
Inductive planning_outcome {Expr} `{ExprOps Expr} (q : Query Expr)
  : result (RootPlan Expr) -> Prop :=
| outcome_update_delete :
    get_stmt_type q = kUPDATE \/ get_stmt_type q = kDELETE ->
    planning_outcome q (Err AssertionFailed)
| outcome_insert_without_destination :
    get_stmt_type q = kINSERT -> get_rangetable q = [] ->
    planning_outcome q (Err (Undefined OutOfBounds))
| outcome_union next :
    has_destination q -> get_next_query q = Some next ->
    planning_outcome q (Err (NotSupported union_not_supported))
| outcome_scan_out_of_bounds ub :
    has_destination q -> get_next_query q = None ->
    ~ scan_stage_in_bounds q ->
    planning_outcome q (Err (Undefined ub))
| outcome_joins :
    has_destination q -> get_next_query q = None ->
    scan_stage_in_bounds q -> (2 <= length (scanned_entries q))%nat ->
    planning_outcome q (Err (NotSupported joins_not_supported))
| outcome_null_plan :
    has_destination q -> get_next_query q = None ->
    scan_stage_in_bounds q -> scanned_entries q = [] ->
    ~ no_aggregation q -> ~ (get_targetlist q = [] /\ no_group_by q) ->
    planning_outcome q (Err (Undefined NullDereference))
| outcome_having_assertion :
    has_destination q -> get_next_query q = None ->
    scan_stage_in_bounds q -> (length (scanned_entries q) <= 1)%nat ->
    having_others q <> [] ->
    scanned_entries q <> [] \/ (get_targetlist q = [] /\ no_group_by q) ->
    planning_outcome q (Err AssertionFailed)
| outcome_order_by ob :
    has_destination q -> get_next_query q = None ->
    stages_defined q -> get_order_by q = Some ob ->
    planning_outcome q (Err (NotSupported order_by_not_supported))
| outcome_planned dest :
    result_table q = Ok dest -> plannable q ->
    planning_outcome q
      (Ok (mkRootPlan (Some (planned_plan q)) (get_stmt_type q) (fst dest) (snd dest))).

(** The query [q] with its WHERE predicate replaced. *)
Definition set_where_predicate {Expr} (q : Query Expr) (w : option Expr) : Query Expr :=
  mkQuery (get_stmt_type q) (get_rangetable q) (get_targetlist q) w
          (get_group_by q) (get_having_predicate q) (get_order_by q)
          (get_next_query q) (get_num_aggs q).

(** The optimizer [o] with its recorded constant predicates replaced. *)
Definition set_const_predicates {Expr} (o : Optimizer Expr) (cp : list Expr)
  : Optimizer Expr :=
  mkOptimizer (cur_plan o) (base_scans o) (join_predicates o) cp.

(** ** The debug dump

    The [print] members write to [std::cout]; the embedding returns the
    text written.  A [print] that dereferences a null plan pointer is the
    [NullDereference] failure.  An [int] is written in decimal
    ([pretty]); [std::endl] is the newline character. *)

Definition endl : string := String (ascii_of_nat 10) EmptyString.

(** The [print] members of [Analyzer::Expr], [Analyzer::TargetEntry] and
    [Analyzer::OrderEntry], declared outside this unit: the text each
    writes. *)
Class ExprPrint (Expr : Type) := {
  Expr_print : Expr -> string;
  TargetEntry_print : TargetEntry Expr -> string;
  OrderEntry_print : OrderEntry -> string }.

(** [for (auto i : l) { std::cout << i; std::cout << " "; }] *)
Definition print_ints (l : list Z) : string :=
  foldr (fun i out => pretty i +:+ " " +:+ out) "" l.

Section Printing.
Context {Expr : Type} `{ExprPrint Expr}.

(** [for (auto p : l) p->print();] over expressions, target entries and
    order entries. *)
Definition print_exprs (l : list Expr) : string :=
  foldr (fun e out => Expr_print e +:+ out) "" l.

Definition print_tles (l : list (TargetEntry Expr)) : string :=
  foldr (fun t out => TargetEntry_print t +:+ out) "" l.

Definition print_order_entries (l : list OrderEntry) : string :=
  foldr (fun o out => OrderEntry_print o +:+ out) "" l.

(** [Plan::print]: the members of the base class. *)
Definition Plan_print (tl : list (TargetEntry Expr)) (qs : list Expr) : string :=
  "targetlist: " +:+ print_tles tl +:+ endl +:+
  "quals: " +:+ print_exprs qs +:+ endl.

(** The derived [print] members; [base] is the text of [Plan::print()]
    and [child], [outer], [inner], [plans] the text the sub-plans wrote. *)
Definition Result_print (base child : string) (const_quals : list Expr) : string :=
  "(Result" +:+ endl +:+ base +:+ child +:+
  "const_quals: " +:+ print_exprs const_quals +:+ ")" +:+ endl.

Definition Scan_print (base : string) (simple_quals : list Expr)
           (table_id : Z) (col_list : list Z) : string :=
  "(Scan" +:+ endl +:+ base +:+
  "simple_quals: " +:+ print_exprs simple_quals +:+
  endl +:+ "table: " +:+ pretty table_id +:+
  " columns: " +:+ print_ints col_list +:+ ")" +:+ endl.

Definition ValuesScan_print (base : string) : string :=
  "(ValuesScan" +:+ endl +:+ base +:+ ")" +:+ endl.

Definition Join_print (base outer inner : string) : string :=
  "(Join" +:+ endl +:+ base +:+
  "Outer Plan: " +:+ outer +:+ "Inner Plan: " +:+ inner +:+ ")" +:+ endl.

Definition AggPlan_print (base child : string) (groupby_list : list Expr) : string :=
  "(Agg" +:+ endl +:+ base +:+ child +:+
  "Group By: " +:+ print_exprs groupby_list +:+ ")" +:+ endl.

Definition Append_print (plans : string) : string :=
  "(Append" +:+ endl +:+ plans +:+ ")" +:+ endl.

Definition MergeAppend_print (plans : string) : string :=
  "(MergeAppend" +:+ endl +:+ plans +:+ ")" +:+ endl.

Definition Sort_print (base child : string) (order_entries : list OrderEntry) : string :=
  "(Sort" +:+ endl +:+ base +:+ child +:+
  "Order By: " +:+ print_order_entries order_entries +:+ ")" +:+ endl.

(** Modelled from the spec: [print] is a virtual member of [Plan]
    ([Planner.h]), so [p->print()] runs the member of the node's own
    class.  [get_outerplan()] is [child_plan] and [get_innerplan()] is
    [child_plan2]. *)
Fixpoint print (p : Plan Expr) : result string :=
  match p with
  | mkPlan tl qs _ child nd =>
      let base := Plan_print tl qs in
      let child_print :=
        match child with
        | Some c => print c
        | None => Err (Undefined NullDereference)
        end in
      let print_all :=
        fix print_all (ps : list (Plan Expr)) : result string :=
          match ps with
          | [] => Ok ""
          | p' :: ps' =>
              out <-- print p' ;; rest <-- print_all ps' ;; Ok (out +:+ rest)
          end in
      match nd with
      | ResultNode _ const_quals =>
          c <-- child_print ;; Ok (Result_print base c const_quals)
      | ScanNode _ simple_quals table_id col_list =>
          Ok (Scan_print base simple_quals table_id col_list)
      | ValuesScanNode _ => Ok (ValuesScan_print base)
      | JoinNode _ child_plan2 =>
          outer <-- child_print ;; inner <-- print child_plan2 ;;
          Ok (Join_print base outer inner)
      | AggPlanNode _ groupby_list =>
          c <-- child_print ;; Ok (AggPlan_print base c groupby_list)
      | AppendNode _ plan_list =>
          plans <-- print_all plan_list ;; Ok (Append_print plans)
      | MergeAppendNode _ mergeplan_list =>
          plans <-- print_all mergeplan_list ;; Ok (MergeAppend_print plans)
      | SortNode _ order_entries =>
          c <-- child_print ;; Ok (Sort_print base c order_entries)
      end
  end.

(** The header [RootPlan::print] writes for each statement kind. *)
Definition RootPlan_header (stmt : SQLStmtType) (result_table_id : Z)
           (result_col_list : list Z) : string :=
  match stmt with
  | kSELECT => "SELECT" +:+ endl
  | kUPDATE =>
      "UPDATE " +:+ "result table: " +:+ pretty result_table_id +:+
      " columns: " +:+ print_ints result_col_list +:+ endl
  | kINSERT =>
      "INSERT " +:+ "result table: " +:+ pretty result_table_id +:+
      " columns: " +:+ print_ints result_col_list +:+ endl
  | kDELETE =>
      "DELETE " +:+ "result table: " +:+ pretty result_table_id +:+ endl
  end.

Definition RootPlan_print (rp : RootPlan Expr) : result string :=
  plan <-- match get_plan rp with
           | Some p => print p
           | None => Err (Undefined NullDereference)
           end ;;
  Ok ("(RootPlan " +:+
      RootPlan_header (root_stmt_type rp) (get_result_table_id rp) (get_result_col_list rp) +:+
      plan +:+ ")" +:+ endl).

(** The sub-plans a node's [print] descends into besides [child_plan]. *)
Definition sub_plans (nd : PlanNode Expr (Plan Expr)) : list (Plan Expr) :=
  match nd with
  | JoinNode _ child_plan2 => [child_plan2]
  | AppendNode _ plan_list => plan_list
  | MergeAppendNode _ mergeplan_list => mergeplan_list
  | _ => []
  end.

(** [print] of this node reads through [child_plan]. *)
Definition prints_child (nd : PlanNode Expr (Plan Expr)) : bool :=
  match nd with
  | ResultNode _ _ | JoinNode _ _ | AggPlanNode _ _ | SortNode _ _ => true
  | _ => false
  end.

(** No node that [print] reaches reads through a null [child_plan]. *)
Fixpoint children_present (p : Plan Expr) : bool :=
  match p with
  | mkPlan _ _ _ child nd =>
      let all_present :=
        fix all_present (ps : list (Plan Expr)) : bool :=
          match ps with
          | [] => true
          | p' :: ps' => children_present p' && all_present ps'
          end in
      (if prints_child nd
       then match child with
            | Some c => children_present c
            | None => false
            end
       else true)
      && match nd with
         | JoinNode _ child_plan2 => children_present child_plan2
         | AppendNode _ plan_list => all_present plan_list
         | MergeAppendNode _ mergeplan_list => all_present mergeplan_list
         | _ => true
         end
  end.

End Printing.

Section PrintingLists.
Context {Expr : Type} `{ExprPrint Expr}.

(** [for (auto p : plan_list) p->print();] *)
Fixpoint print_list (ps : list (Plan Expr)) : result string :=
  match ps with
  | [] => Ok ""
  | p' :: ps' => out <-- print p' ;; rest <-- print_list ps' ;; Ok (out +:+ rest)
  end.

Fixpoint all_children_present (ps : list (Plan Expr)) : bool :=
  match ps with
  | [] => true
  | p' :: ps' => children_present p' && all_children_present ps'
  end.

End PrintingLists.

(** A printer for the reference expressions, for the sample dumps. *)
Module SqlPrint.

Fixpoint show (e : Sql.Expr) : string :=
  match e with
  | Sql.ColVar cv =>
      "(col " +:+ pretty (get_rte_idx cv) +:+ "." +:+ pretty (get_column_id cv) +:+ ") "
  | Sql.Var n => "(var " +:+ pretty n +:+ ") "
  | Sql.Constant v => "(const " +:+ pretty v +:+ ") "
  | Sql.BinOper _ l r => "(op " +:+ show l +:+ show r +:+ ") "
  | Sql.AggExpr _ arg =>
      "(agg " +:+ match arg with
                  | Some a => show a
                  | None => "* "
                  end +:+ ") "
  end.

Global Instance printer : ExprPrint Sql.Expr := {|
  Expr_print := show;
  TargetEntry_print := fun t => "(" +:+ get_resname t +:+ " " +:+ show (get_expr t) +:+ ") ";
  OrderEntry_print := fun o => pretty (tle_no o) +:+ " " |}.

End SqlPrint.

(** * Properties *)

(** ** The result monad *)

Lemma bind_Ok {A B} (c : result A) (k : A -> result B) (b : B) :
  bind c k = Ok b -> exists a, c = Ok a /\ k a = Ok b.
Proof. destruct c as [a|e]; simpl; [eauto | discriminate]. Qed.

Lemma bind_Err {A B} (c : result A) (k : A -> result B) (e : failure) :
  bind c k = Err e -> c = Err e \/ exists a, c = Ok a /\ k a = Err e.
Proof. destruct c as [a|e']; simpl; [eauto | intros [= ->]; auto]. Qed.

(** ** Vectors *)

Lemma vec_at_Ok {A} (v : list A) (i : Z) (x : A) :
  vec_at v i = Ok x <-> 0 <= i /\ v !! Z.to_nat i = Some x.
Proof.
  unfold vec_at. destruct (decide (0 <= i)) as [Hi|Hi].
  - destruct (v !! Z.to_nat i) as [y|]; split.
    + intros [= ->]; auto.
    + intros [_ [= ->]]; auto.
    + discriminate.
    + intros [_ ?]; discriminate.
  - split; [discriminate | intros [? _]; contradiction].
Qed.

Lemma vec_at_of_nat {A} (v : list A) (i : nat) (x : A) :
  v !! i = Some x -> vec_at v (Z.of_nat i) = Ok x.
Proof.
  intros Hx. apply vec_at_Ok. split; [lia|]. by rewrite Nat2Z.id.
Qed.

Lemma vec_at_in_range {A} (v : list A) (i : Z) :
  0 <= i < Z.of_nat (length v) -> exists x, vec_at v i = Ok x.
Proof.
  intros Hi.
  destruct (lookup_lt_is_Some_2 v (Z.to_nat i)) as [x Hx]; [lia|].
  exists x. apply vec_at_Ok. split; [lia | done].
Qed.

Lemma vec_at_Err {A} (v : list A) (i : Z) (e : failure) :
  vec_at v i = Err e -> e = Undefined OutOfBounds /\ ~ (0 <= i < Z.of_nat (length v)).
Proof.
  unfold vec_at. destruct (decide (0 <= i)) as [Hi|Hi].
  - destruct (v !! Z.to_nat i) as [y|] eqn:Hy; [discriminate|].
    intros [= <-]. split; [done|]. apply lookup_ge_None in Hy. lia.
  - intros [= <-]. split; [done | lia].
Qed.

Lemma vec_update_Ok {A} (v v' : list A) (i : Z) (f : A -> A) :
  vec_update v i f = Ok v' <->
  0 <= i < Z.of_nat (length v) /\ v' = alter f (Z.to_nat i) v.
Proof.
  unfold vec_update. split.
  - intros Hu. apply bind_Ok in Hu as (x & Hx & Hu).
    apply vec_at_Ok in Hx as [Hi Hx].
    apply lookup_lt_Some in Hx. split; [lia | congruence].
  - intros [Hi ->]. destruct (vec_at_in_range v i Hi) as [x ->]. done.
Qed.

(** ** Loops that update one vector element per iteration *)

Section UpdateLoop.
Context {A S : Type} (target : A -> result (Z * (S -> S))).

Lemma update_step_Ok v x v' :
  (update_step target) v x = Ok v' ->
  length v' = length v /\
  forall i s, v !! i = Some s -> v' !! i = Some (apply_at target i s x).
Proof.
  unfold update_step, apply_at. intros Hs.
  apply bind_Ok in Hs as ([j f] & Ht & Hs). simpl in Hs. rewrite Ht.
  apply vec_update_Ok in Hs as [Hj ->]. split.
  - apply length_alter.
  - intros i s Hi. destruct (decide (j = Z.of_nat i)) as [->|Hne].
    + rewrite Nat2Z.id, list_lookup_alter_eq, Hi. done.
    + rewrite list_lookup_alter_ne; [done | lia].
Qed.

Lemma for_each_update_Ok xs : forall v v',
  for_each (update_step target) xs v = Ok v' ->
  length v' = length v /\
  forall i s, v !! i = Some s -> v' !! i = Some (foldl (apply_at target i) s xs).
Proof.
  induction xs as [|x xs IH]; simpl; intros v v' Hv.
  - injection Hv as <-. auto.
  - apply bind_Ok in Hv as (v1 & Hstep & Hv).
    apply update_step_Ok in Hstep as [Hlen Hlk].
    apply IH in Hv as [Hlen' Hlk']. split; [congruence|].
    intros i s Hi. apply Hlk'. by apply Hlk.
Qed.

(** The loop completes exactly when every iteration names an index
    inside the vector. *)
Lemma for_each_update_defined xs : forall v,
  (forall x, x ∈ xs -> exists j f, target x = Ok (j, f) /\ 0 <= j < Z.of_nat (length v)) ->
  exists v', for_each (update_step target) xs v = Ok v'.
Proof.
  induction xs as [|x xs IH]; simpl; intros v Hall; [eauto|].
  destruct (Hall x) as (j & f & Hx & Hj); [by left|].
  assert (Hstep: (update_step target) v x = Ok (alter f (Z.to_nat j) v)).
  { unfold update_step. rewrite Hx. simpl. by apply vec_update_Ok. }
  rewrite Hstep. simpl. apply IH. intros y Hy.
  destruct (Hall y) as (j' & f' & ? & ?); [by right|].
  exists j', f'. rewrite length_alter. auto.
Qed.

Lemma for_each_update_in_range xs : forall v v',
  for_each (update_step target) xs v = Ok v' ->
  forall x, x ∈ xs -> exists j f, target x = Ok (j, f) /\ 0 <= j < Z.of_nat (length v).
Proof.
  induction xs as [|x xs IH]; simpl; intros v v' Hv y Hy.
  - by apply elem_of_nil in Hy.
  - apply bind_Ok in Hv as (v1 & Hstep & Hv).
    apply elem_of_cons in Hy as [->|Hy].
    + unfold update_step in Hstep.
      apply bind_Ok in Hstep as ([j f] & Ht & Hu).
      apply vec_update_Ok in Hu as [Hj _]. eauto.
    + pose proof (update_step_Ok _ _ _ Hstep) as [Hlen _].
      rewrite <- Hlen. eapply IH; eauto.
Qed.

End UpdateLoop.

(** ** [std::set] insertion *)

Section SetInsert.
Context {A : Type} (lt : A -> A -> bool).

Lemma set_insert_elem_of x s z : z ∈ set_insert lt x s -> z = x \/ z ∈ s.
Proof.
  induction s as [|y s IH]; simpl.
  - intros Hz. apply list_elem_of_singleton in Hz. auto.
  - destruct (lt x y).
    + intros Hz. apply elem_of_cons in Hz as [->|Hz]; auto.
    + destruct (lt y x); [|auto].
      intros Hz. apply elem_of_cons in Hz as [->|Hz].
      * right. by left.
      * destruct (IH Hz) as [->|Hs]; [auto|]. right. by right.
Qed.

Lemma set_insert_keeps x s z : z ∈ s -> z ∈ set_insert lt x s.
Proof.
  induction s as [|y s IH]; simpl; intros Hz.
  - by apply elem_of_nil in Hz.
  - destruct (lt x y); [by right|].
    destruct (lt y x); [|done].
    apply elem_of_cons in Hz as [->|Hz]; [by left | right; auto].
Qed.

(** After [insert(x)] the set holds an element equivalent to [x]. *)
Lemma set_insert_equiv x s :
  lt x x = false ->
  exists z, z ∈ set_insert lt x s /\ lt x z = false /\ lt z x = false.
Proof.
  intros Hirr. induction s as [|y s IH]; simpl.
  - exists x. split; [by left | auto].
  - destruct (lt x y) eqn:Hxy.
    + exists x. split; [by left | auto].
    + destruct (lt y x) eqn:Hyx.
      * destruct IH as (z & Hz & ?). exists z. split; [by right | done].
      * exists y. split; [by left | auto].
Qed.

Lemma set_insert_sorted x s :
  (forall a b c, lt a b = true -> lt b c = true -> lt a c = true) ->
  StronglySorted (fun a b => lt a b = true) s ->
  StronglySorted (fun a b => lt a b = true) (set_insert lt x s).
Proof.
  intros Htrans. induction 1 as [|y s Hs IH Hy]; simpl.
  - constructor; [constructor | constructor].
  - destruct (lt x y) eqn:Hxy.
    + constructor; [by constructor|].
      constructor; [done|].
      eapply Forall_impl; [exact Hy|]. simpl. eauto.
    + destruct (lt y x) eqn:Hyx; [|by constructor].
      constructor; [done|].
      apply Forall_forall. intros z Hz.
      apply set_insert_elem_of in Hz as [->|Hz]; [done|].
      rewrite Forall_forall in Hy. auto.
Qed.

Lemma set_insert_all_elem_of xs : forall s z,
  z ∈ set_insert_all lt xs s -> z ∈ xs \/ z ∈ s.
Proof.
  unfold set_insert_all.
  induction xs as [|x xs IH]; simpl; intros s z Hz; [auto|].
  apply IH in Hz as [Hz|Hz]; [left; by right|].
  apply set_insert_elem_of in Hz as [->|Hz]; [left; by left | auto].
Qed.

Lemma set_insert_all_keeps xs : forall s z,
  z ∈ s -> z ∈ set_insert_all lt xs s.
Proof.
  unfold set_insert_all.
  induction xs as [|x xs IH]; simpl; intros s z Hz; [done|].
  apply IH. by apply set_insert_keeps.
Qed.

Lemma set_insert_all_equiv xs : forall s x,
  (forall a, lt a a = false) ->
  x ∈ xs ->
  exists z, z ∈ set_insert_all lt xs s /\ lt x z = false /\ lt z x = false.
Proof.
  induction xs as [|y xs IH]; intros s x Hirr Hx.
  - by apply elem_of_nil in Hx.
  - apply elem_of_cons in Hx as [->|Hx].
    + destruct (set_insert_equiv y s (Hirr y)) as (z & Hz & ?).
      exists z. split; [|done].
      change (z ∈ set_insert_all lt xs (set_insert lt y s)).
      by apply set_insert_all_keeps.
    + apply (IH (set_insert lt y s) x Hirr Hx).
Qed.

Lemma set_insert_all_sorted xs : forall s,
  (forall a b c, lt a b = true -> lt b c = true -> lt a c = true) ->
  StronglySorted (fun a b => lt a b = true) s ->
  StronglySorted (fun a b => lt a b = true) (set_insert_all lt xs s).
Proof.
  unfold set_insert_all.
  induction xs as [|x xs IH]; simpl; intros s Htrans Hs; [done|].
  apply IH; [done|]. by apply set_insert_sorted.
Qed.

Lemma set_insert_all_app xs ys s :
  set_insert_all lt (xs ++ ys) s = set_insert_all lt ys (set_insert_all lt xs s).
Proof. unfold set_insert_all. apply foldl_app. Qed.

End SetInsert.

(** ** The ordering of column references *)

Lemma colvar_comp_true a b :
  colvar_comp a b = true <->
  get_rte_idx a < get_rte_idx b \/
  (get_rte_idx a = get_rte_idx b /\ get_column_id a < get_column_id b).
Proof.
  unfold colvar_comp.
  rewrite orb_true_iff, andb_true_iff, !bool_decide_eq_true. tauto.
Qed.

Lemma colvar_comp_irrefl a : colvar_comp a a = false.
Proof.
  apply not_true_is_false. rewrite colvar_comp_true. lia.
Qed.

Lemma colvar_comp_trans a b c :
  colvar_comp a b = true -> colvar_comp b c = true -> colvar_comp a c = true.
Proof. rewrite !colvar_comp_true. lia. Qed.

(** Equivalent under [colvar_comp] means equal (table index, column id). *)
Lemma colvar_comp_equiv a b :
  colvar_comp a b = false /\ colvar_comp b a = false <-> colvar_key a = colvar_key b.
Proof.
  unfold colvar_key. split.
  - intros [Hab Hba].
    apply not_true_iff_false in Hab, Hba. rewrite colvar_comp_true in Hab, Hba.
    f_equal; lia.
  - intros [= Hr Hc]. split; apply not_true_is_false; rewrite colvar_comp_true; lia.
Qed.

(** In a set ordered by [colvar_comp] a key occurs at most once. *)
Lemma colvar_sorted_key_once (s : list ColumnVar) (k : Z * Z) :
  StronglySorted colvar_lt s ->
  (length (filter (fun c => colvar_key c = k) s) <= 1)%nat.
Proof.
  induction 1 as [|y s Hs IH Hy]; [simpl; lia|].
  rewrite filter_cons. destruct (decide (colvar_key y = k)) as [Hk|Hk]; [|done].
  assert (Hnone: filter (fun c => colvar_key c = k) s = []).
  { clear IH Hs. induction Hy as [|z s Hz Hy IH]; [done|].
    rewrite filter_cons_False; [exact IH|].
    intros Hzk. unfold colvar_lt in Hz. apply colvar_comp_true in Hz.
    unfold colvar_key in Hk, Hzk. rewrite <- Hzk in Hk.
    injection Hk as ? ?. lia. }
  rewrite Hnone. simpl. lia.
Qed.

(** ** The scan stage *)

Lemma for_each_ext {A S} (f g : S -> A -> result S) xs :
  (forall s x, f s x = g s x) -> forall s, for_each f xs s = for_each g xs s.
Proof.
  intros Hfg. induction xs as [|x xs IH]; simpl; intros s; [done|].
  rewrite Hfg. destruct (g s x); simpl; auto.
Qed.

Section ScanStage.
Context {Expr : Type} `{ExprOps Expr}.

Lemma build_base_scans_rest stmt rt : forall acc : list (Scan Expr),
  build_base_scans stmt false rt acc = acc ++ (Scan_of_rte <$> rt).
Proof.
  induction rt as [|rte rt IH]; simpl; intros acc.
  - by rewrite app_nil_r.
  - rewrite IH, <- app_assoc. done.
Qed.

Lemma build_base_scans_no_insert stmt rt : forall acc : list (Scan Expr),
  stmt <> kINSERT ->
  build_base_scans stmt true rt acc = acc ++ (Scan_of_rte <$> rt).
Proof.
  induction rt as [|rte rt IH]; simpl; intros acc Hne.
  - by rewrite app_nil_r.
  - rewrite bool_decide_eq_false_2 by done. rewrite IH, <- app_assoc; done.
Qed.

Lemma build_base_scans_spec (q : Query Expr) :
  build_base_scans (Expr:=Expr) (get_stmt_type q) true (get_rangetable q) []
  = Scan_of_rte <$> scanned_entries q.
Proof.
  unfold scanned_entries. destruct (decide (get_stmt_type q = kINSERT)) as [Hi|Hi].
  - rewrite bool_decide_eq_true_2 by done. rewrite Hi.
    destruct (get_rangetable q) as [|rte rt]; simpl; [done|].
    apply build_base_scans_rest.
  - rewrite bool_decide_eq_false_2 by done.
    by apply build_base_scans_no_insert.
Qed.

(** Outside INSERT the base-scan index is the range-table index. *)
Lemma select_scan_index (q : Query Expr) :
  get_stmt_type q <> kINSERT -> scanned_entries q = get_rangetable q.
Proof.
  unfold scanned_entries. intros Hne. by rewrite bool_decide_eq_false_2.
Qed.

(** The range-table index of an INSERT is one ahead of the base-scan
    index: the scan at [i] is built from entry [i + 1]. *)
Lemma insert_scan_index_shift (q : Query Expr) (i : nat) :
  get_stmt_type q = kINSERT ->
  scanned_entries q !! i = get_rangetable q !! S i.
Proof.
  unfold scanned_entries. intros ->. simpl. by destruct (get_rangetable q).
Qed.

(** Which range-table entry the base scan at index [i] is built from. *)
Lemma scanned_entries_lookup (q : Query Expr) (i : nat) :
  scanned_entries q !! i
  = get_rangetable q !! (if bool_decide (get_stmt_type q = kINSERT) then S i else i).
Proof.
  destruct (decide (get_stmt_type q = kINSERT)) as [Hi|Hi].
  - rewrite bool_decide_eq_true_2 by done. by apply insert_scan_index_shift.
  - rewrite bool_decide_eq_false_2 by done. by rewrite select_scan_index.
Qed.

Lemma attach_scan_predicate_step (v : list (Scan Expr)) p :
  attach_scan_predicate v p = update_step pred_target v p.
Proof.
  unfold attach_scan_predicate, update_step, pred_target.
  destruct (normalize_simple_predicate p) as [[j sp]|]; [done|].
  destruct (first_rte_idx p); done.
Qed.

Lemma attach_colvar_step (v : list (Scan Expr)) cv :
  attach_colvar v cv = update_step colvar_target v cv.
Proof. done. Qed.

Lemma foldl_collect_into es : forall s,
  foldl collect_into s es
  = set_insert_all colvar_comp (concat (collect_column_var <$> es)) s.
Proof.
  induction es as [|e es IH]; simpl; intros s; [done|].
  rewrite IH, set_insert_all_app. done.
Qed.

Lemma collect_colvar_set_spec (q : Query Expr) jp :
  collect_colvar_set q jp
  = set_insert_all colvar_comp (referenced_column_vars q jp) [].
Proof.
  unfold collect_colvar_set, referenced_column_vars.
  rewrite !set_insert_all_app.
  assert (Htl: forall tl s,
    foldl (fun s tle => collect_into s (get_expr tle)) s tl
    = set_insert_all colvar_comp
        (concat ((fun tle : TargetEntry Expr => collect_column_var (get_expr tle)) <$> tl)) s).
  { induction tl as [|tle tl IH]; simpl; intros s; [done|].
    rewrite IH, set_insert_all_app. done. }
  rewrite Htl, foldl_collect_into.
  destruct (get_group_by q) as [g|]; destruct (get_having_predicate q) as [h|];
    rewrite ?foldl_collect_into; done.
Qed.

Lemma collect_colvar_set_sorted (q : Query Expr) jp :
  StronglySorted colvar_lt (collect_colvar_set q jp).
Proof.
  rewrite collect_colvar_set_spec.
  apply (set_insert_all_sorted colvar_comp); [exact colvar_comp_trans | constructor].
Qed.

Lemma collect_colvar_set_sound (q : Query Expr) jp cv :
  cv ∈ collect_colvar_set q jp -> cv ∈ referenced_column_vars q jp.
Proof.
  rewrite collect_colvar_set_spec. intros Hcv.
  apply set_insert_all_elem_of in Hcv as [?|Hn]; [done|].
  by apply elem_of_nil in Hn.
Qed.

Lemma collect_colvar_set_complete (q : Query Expr) jp cv :
  cv ∈ referenced_column_vars q jp ->
  exists cv', cv' ∈ collect_colvar_set q jp /\ colvar_key cv' = colvar_key cv.
Proof.
  rewrite collect_colvar_set_spec. intros Hcv.
  destruct (set_insert_all_equiv colvar_comp _ [] cv colvar_comp_irrefl Hcv)
    as (z & Hz & Hlt).
  exists z. split; [done|]. symmetry. by apply colvar_comp_equiv.
Qed.

(** Exactly one element of the set carries the key of a referenced column. *)
Lemma collect_colvar_set_once (q : Query Expr) jp cv :
  cv ∈ referenced_column_vars q jp ->
  length (filter (fun c => colvar_key c = colvar_key cv) (collect_colvar_set q jp)) = 1%nat.
Proof.
  intros Hcv.
  pose proof (colvar_sorted_key_once _ (colvar_key cv) (collect_colvar_set_sorted q jp)) as Hle.
  destruct (collect_colvar_set_complete q jp cv Hcv) as (cv' & Hin & Hk).
  assert (Hin': cv' ∈ filter (fun c => colvar_key c = colvar_key cv) (collect_colvar_set q jp))
    by (apply list_elem_of_filter; auto).
  destruct (filter _ _) as [|? [|? ?]]; simpl in *; [by apply elem_of_nil in Hin' | done | lia].
Qed.

End ScanStage.

Section ScanStageResult.
Context {Expr : Type} `{ExprOps Expr}.

Lemma Scan_eta (s : Scan Expr) :
  s = mkScan (scan_targetlist s) (scan_quals s) (scan_cost s)
             (simple_quals s) (table_id s) (col_list s).
Proof. by destruct s. Qed.

Lemma pred_loop_fields (i : nat) preds : forall s : Scan Expr,
  foldl (apply_at pred_target i) s preds
  = mkScan (scan_targetlist s)
           (scan_quals s ++ quals_for (Z.of_nat i) preds)
           (scan_cost s)
           (simple_quals s ++ simple_quals_for (Z.of_nat i) preds)
           (table_id s) (col_list s).
Proof.
  induction preds as [|p preds IH]; intros s.
  - simpl. rewrite !app_nil_r. apply Scan_eta.
  - simpl. rewrite IH. clear IH.
    unfold apply_at, pred_target, simple_quals_for, quals_for. simpl.
    destruct (normalize_simple_predicate p) as [[j sp]|]; simpl.
    + destruct (decide (j = Z.of_nat i)); simpl; [|done].
      by rewrite <- app_assoc.
    + destruct (first_rte_idx p) as [j|e]; simpl; [|done].
      destruct (decide (j = Z.of_nat i)); simpl; [|done].
      by rewrite <- app_assoc.
Qed.

Lemma colvar_loop_fields (i : nat) cvs : forall s : Scan Expr,
  foldl (apply_at colvar_target i) s cvs
  = mkScan (scan_targetlist s ++ tles_for (Z.of_nat i) cvs)
           (scan_quals s) (scan_cost s) (simple_quals s) (table_id s) (col_list s).
Proof.
  induction cvs as [|cv cvs IH]; intros s.
  - unfold tles_for. simpl. rewrite app_nil_r. apply Scan_eta.
  - simpl. rewrite IH. clear IH.
    unfold apply_at, colvar_target, tles_for. rewrite filter_cons.
    destruct (decide (get_rte_idx cv = Z.of_nat i)); simpl; [|done].
    by rewrite <- app_assoc.
Qed.

(** The two attachment loops, as [optimize_scans] chains them. *)
Lemma optimize_scans_loops (q : Query Expr) o' :
  optimize_scans q Optimizer_init = Ok o' <->
  exists scans1,
    for_each (update_step pred_target) (scan_predicates q)
             (Scan_of_rte <$> scanned_entries q) = Ok scans1 /\
    for_each (update_step colvar_target)
             (collect_colvar_set q (snd (fst (where_groups q)))) scans1
      = Ok (base_scans o') /\
    cur_plan o' = None /\
    join_predicates o' = snd (fst (where_groups q)) /\
    const_predicates o' = snd (where_groups q).
Proof.
  unfold optimize_scans, scan_predicates. simpl.
  rewrite build_base_scans_spec.
  destruct (where_groups q) as [[sp jp] cp]. simpl.
  rewrite (for_each_ext attach_scan_predicate (update_step pred_target))
    by apply attach_scan_predicate_step.
  destruct (for_each (update_step pred_target) sp _) as [scans1|e]; simpl.
  - rewrite (for_each_ext attach_colvar (update_step colvar_target))
      by apply attach_colvar_step.
    destruct (for_each (update_step colvar_target) _ scans1) as [scans2|e] eqn:H2;
      simpl in *.
    + split.
      * intros [= <-]. exists scans1. simpl. repeat split; done.
      * intros (? & [= <-] & H2' & ? & ? & ?). rewrite H2 in H2'.
        destruct o'; simpl in *. congruence.
    + split; [discriminate|]. intros (? & [= <-] & H2' & _).
      rewrite H2 in H2'. discriminate.
  - split; [discriminate|]. intros (? & ? & _). discriminate.
Qed.

(** What the scan stage leaves in [base_scans]: one scan per scanned
    range-table entry, in order, each holding exactly the predicates and
    column references attached under its position. *)
Lemma optimize_scans_Ok (q : Query Expr) o' :
  optimize_scans q Optimizer_init = Ok o' ->
  length (base_scans o') = length (scanned_entries q) /\
  forall i s, base_scans o' !! i = Some s ->
    exists rte, scanned_entries q !! i = Some rte /\ s = planned_scan q i rte.
Proof.
  intros Ho. apply optimize_scans_loops in Ho as (scans1 & H1 & H2 & _).
  apply for_each_update_Ok in H1 as [Hlen1 Hlk1].
  apply for_each_update_Ok in H2 as [Hlen2 Hlk2].
  split; [by rewrite Hlen2, Hlen1, length_fmap|].
  intros i s Hs.
  destruct (lookup_lt_is_Some_2 (scanned_entries q) i) as [rte Hrte].
  { apply lookup_lt_Some in Hs. by rewrite Hlen2, Hlen1, length_fmap in Hs. }
  exists rte. split; [done|].
  assert (H0: (Scan_of_rte (Expr:=Expr) <$> scanned_entries q) !! i = Some (Scan_of_rte rte))
    by (by rewrite list_lookup_fmap, Hrte).
  apply Hlk1, Hlk2 in H0. rewrite Hs in H0. injection H0 as ->.
  rewrite colvar_loop_fields, pred_loop_fields. done.
Qed.

Lemma optimize_scans_defined (q : Query Expr) :
  scan_stage_in_bounds q <-> exists o', optimize_scans q Optimizer_init = Ok o'.
Proof.
  unfold scan_stage_in_bounds. rewrite build_base_scans_spec. split.
  - intros [Hp Hc].
    destruct (for_each_update_defined pred_target (scan_predicates q)
                (Scan_of_rte <$> scanned_entries q) Hp) as [scans1 H1].
    destruct (for_each_update_defined colvar_target
                (collect_colvar_set q (snd (fst (where_groups q)))) scans1) as [scans2 H2].
    { intros cv Hcv. exists (get_rte_idx cv), (add_tle (scan_tle cv)).
      split; [done|]. apply for_each_update_Ok in H1 as [-> _].
      apply Hc. by apply collect_colvar_set_sound. }
    exists (mkOptimizer None scans2 (snd (fst (where_groups q))) (snd (where_groups q))).
    apply optimize_scans_loops. exists scans1. simpl. auto.
  - intros [o' Ho]. apply optimize_scans_loops in Ho as (scans1 & H1 & H2 & _).
    split.
    + intros p Hp. eapply for_each_update_in_range; eauto.
    + intros cv Hcv.
      destruct (collect_colvar_set_complete q _ cv Hcv) as (cv' & Hin & [= Hr _]).
      destruct (for_each_update_in_range _ _ _ _ H2 cv' Hin) as (j & f & [= <- _] & Hj).
      apply for_each_update_Ok in H1 as [Hlen _]. rewrite <- Hr, <- Hlen. done.
Qed.

End ScanStageResult.

Section ScanStageClaims.
Context {Expr : Type} `{ExprOps Expr}.

Lemma base_scan_at (q : Query Expr) o' (i : Z) :
  optimize_scans q Optimizer_init = Ok o' ->
  0 <= i < Z.of_nat (length (scanned_entries q)) ->
  exists rte, scanned_entries q !! Z.to_nat i = Some rte /\
              vec_at (base_scans o') i = Ok (planned_scan q (Z.to_nat i) rte).
Proof.
  intros Ho Hi. apply optimize_scans_Ok in Ho as [Hlen Hlk].
  destruct (lookup_lt_is_Some_2 (base_scans o') (Z.to_nat i)) as [s Hs]; [lia|].
  destruct (Hlk _ _ Hs) as (rte & Hrte & ->).
  exists rte. split; [done|]. apply vec_at_Ok. split; [lia | done].
Qed.

Lemma pred_target_simple (p : Expr) i simple_pred :
  normalize_simple_predicate p = Some (i, simple_pred) ->
  pred_target p = Ok (i, add_simple_predicate simple_pred).
Proof. unfold pred_target. by intros ->. Qed.

Lemma pred_target_general (p : Expr) i f :
  normalize_simple_predicate p = None ->
  pred_target p = Ok (i, f) ->
  first_rte_idx p = Ok i /\ f = add_predicate (deep_copy p).
Proof.
  unfold pred_target. intros ->. destruct (first_rte_idx p); simpl; [|discriminate].
  intros [= -> <-]. done.
Qed.

(** The index [first_rte_idx] returns is the least member of the
    referenced-index set. *)
Lemma first_rte_idx_elem_of (p : Expr) i :
  first_rte_idx p = Ok i -> i ∈ collect_rte_idx p.
Proof.
  unfold first_rte_idx.
  destruct (set_insert_all Z.ltb (collect_rte_idx p) []) as [|x s] eqn:Hs; [discriminate|].
  intros [= ->].
  destruct (set_insert_all_elem_of Z.ltb (collect_rte_idx p) [] i) as [?|Hn]; [|done|].
  - rewrite Hs. by left.
  - by apply elem_of_nil in Hn.
Qed.

(** X19.  Pushdown by subscript.  When the scan stage stays within
    [base_scans] it completes, and then: every scan predicate of the
    WHERE clause that normalizes to a simple predicate naming index [i]
    has its normalized form in the [simple_quals] of [base_scans[i]];
    every scan predicate that fails normalization has its deep copy in
    the [quals] of [base_scans[i]] for the least index [i] it references;
    and no normalized predicate reaches a [quals] list, because each
    scan's [simple_quals] and [quals] are exactly these two attachments,
    in predicate order.  [base_scans[i]] is the scan built from the
    [i]-th scanned entry, which is range-table entry [i], except in an
    INSERT, where it is range-table entry [i + 1]. *)
Theorem scan_predicates_pushed_down (q : Query Expr) :
  scan_stage_in_bounds q ->
  (forall i : nat,
     scanned_entries q !! i
     = get_rangetable q !! (if bool_decide (get_stmt_type q = kINSERT) then S i else i)) /\
  exists o', optimize_scans q Optimizer_init = Ok o' /\
    (forall p, p ∈ scan_predicates q ->
       match normalize_simple_predicate p with
       | Some (i, simple_pred) =>
           exists rte s, scanned_entries q !! Z.to_nat i = Some rte /\
                         vec_at (base_scans o') i = Ok s /\
                         table_id s = get_table_id rte /\
                         simple_pred ∈ simple_quals s
       | None =>
           exists i rte s, first_rte_idx p = Ok i /\ i ∈ collect_rte_idx p /\
                           scanned_entries q !! Z.to_nat i = Some rte /\
                           vec_at (base_scans o') i = Ok s /\
                           table_id s = get_table_id rte /\
                           deep_copy p ∈ scan_quals s
       end) /\
    (forall i s, base_scans o' !! i = Some s ->
       simple_quals s = simple_quals_for (Z.of_nat i) (scan_predicates q) /\
       scan_quals s = quals_for (Z.of_nat i) (scan_predicates q) /\
       (forall e, e ∈ simple_quals s ->
          exists p, p ∈ scan_predicates q /\
                    normalize_simple_predicate p = Some (Z.of_nat i, e)) /\
       (forall e, e ∈ scan_quals s ->
          exists p, p ∈ scan_predicates q /\
                    normalize_simple_predicate p = None /\ e = deep_copy p)).
Proof.
  intros Hb. split; [apply scanned_entries_lookup|]. pose proof Hb as [Hp _].
  destruct (proj1 (optimize_scans_defined q) Hb) as [o' Ho].
  exists o'. split; [done|].
  unfold scan_stage_in_bounds in Hp. rewrite build_base_scans_spec, length_fmap in Hp.
  split.
  - intros p Hin. destruct (Hp p Hin) as (i & f & Ht & Hi).
    destruct (base_scan_at q o' i Ho Hi) as (rte & Hrte & Hs).
    destruct (normalize_simple_predicate p) as [[j sp]|] eqn:Hn.
    + rewrite (pred_target_simple _ _ _ Hn) in Ht. injection Ht as -> <-.
      exists rte, (planned_scan q (Z.to_nat i) rte). repeat split; try done.
      simpl. unfold simple_quals_for. apply list_elem_of_omap.
      exists p. split; [done|]. rewrite Hn, Z2Nat.id by lia. by rewrite decide_True.
    + destruct (pred_target_general _ _ _ Hn Ht) as [Hf ->].
      exists i, rte, (planned_scan q (Z.to_nat i) rte).
      repeat split; try done; [by apply first_rte_idx_elem_of|].
      simpl. unfold quals_for. apply list_elem_of_omap.
      exists p. split; [done|]. rewrite Hn, Hf, Z2Nat.id by lia. by rewrite decide_True.
  - intros i s Hs. apply optimize_scans_Ok in Ho as [_ Hlk].
    destruct (Hlk _ _ Hs) as (rte & _ & ->). simpl. repeat split.
    + intros e He. unfold simple_quals_for in He.
      apply list_elem_of_omap in He as (p & Hin & Hp').
      exists p. split; [done|].
      destruct (normalize_simple_predicate p) as [[j sp]|]; [|discriminate].
      destruct (decide (j = Z.of_nat i)); [|discriminate]. congruence.
    + intros e He. unfold quals_for in He.
      apply list_elem_of_omap in He as (p & Hin & Hp').
      exists p. split; [done|].
      destruct (normalize_simple_predicate p) as [[j sp]|]; [discriminate|].
      destruct (first_rte_idx p) as [j|]; [|discriminate].
      destruct (decide (j = Z.of_nat i)); [|discriminate]. split; congruence.
Qed.

End ScanStageClaims.

Lemma scan_predicates_pushed_down_witness :
  scan_stage_in_bounds Sql.where_query /\
  exists o', optimize_scans Sql.where_query Optimizer_init = Ok o' /\
    forall i s, base_scans o' !! i = Some s ->
      simple_quals s = simple_quals_for (Z.of_nat i) [Sql.a_gt_5; Sql.a_plus_b_eq_3] /\
      scan_quals s = quals_for (Z.of_nat i) [Sql.a_gt_5; Sql.a_plus_b_eq_3].
Proof.
  assert (Hb: scan_stage_in_bounds Sql.where_query).
  { apply optimize_scans_defined. eexists. vm_compute. reflexivity. }
  split; [exact Hb|].
  destruct (scan_predicates_pushed_down Sql.where_query Hb) as (_ & o' & Ho & _ & Hall).
  exists o'. split; [exact Ho|].
  intros i s Hs. destruct (Hall i s Hs) as (Hsq & Hq & _). split; assumption.
Defined.

Section ColumnReferences.
Context {Expr : Type} `{ExprOps Expr}.

(** X20.  Deduplication by subscript.  When the scan stage stays within
    [base_scans] it completes with the join conjuncts of the WHERE
    predicate recorded, and for every column reference [cv] met in the
    target list, those join conjuncts, the group-by list or the HAVING
    predicate -- however many times its (table index, column id) pair is
    referenced -- the target list of [base_scans[get_rte_idx cv]]
    consists of anonymous entries (empty name) wrapping deep copies of
    referenced columns of that table index, exactly one of which has
    [cv]'s (table index, column id), under the [colvar_comp] ordering.
    [base_scans[i]] is the scan built from the [i]-th scanned entry,
    which is range-table entry [i], except in an INSERT, where it is
    range-table entry [i + 1]. *)
Theorem column_references_deduplicated (q : Query Expr) :
  scan_stage_in_bounds q ->
  (forall i : nat,
     scanned_entries q !! i
     = get_rangetable q !! (if bool_decide (get_stmt_type q = kINSERT) then S i else i)) /\
  exists o', optimize_scans q Optimizer_init = Ok o' /\
    join_predicates o' = snd (fst (where_groups q)) /\
    forall cv, cv ∈ referenced_column_vars q (snd (fst (where_groups q))) ->
      exists rte s cvs,
        scanned_entries q !! Z.to_nat (get_rte_idx cv) = Some rte /\
        vec_at (base_scans o') (get_rte_idx cv) = Ok s /\
        table_id s = get_table_id rte /\
        scan_targetlist s
          = (fun c => mkTargetEntry "" (deep_copy (colvar_expr c))) <$> cvs /\
        (forall c, c ∈ cvs ->
           get_rte_idx c = get_rte_idx cv /\
           c ∈ referenced_column_vars q (snd (fst (where_groups q)))) /\
        length (filter (fun c => colvar_key c = colvar_key cv) cvs) = 1%nat.
Proof.
  intros Hb. split; [apply scanned_entries_lookup|]. pose proof Hb as [_ Hc].
  destruct (proj1 (optimize_scans_defined q) Hb) as [o' Ho].
  exists o'. split; [done|].
  pose proof (proj1 (optimize_scans_loops q o') Ho) as (_ & _ & _ & _ & Hjp & _).
  split; [done|]. intros cv Hcv.
  unfold scan_stage_in_bounds in Hc. rewrite build_base_scans_spec, length_fmap in Hc.
  destruct (base_scan_at q o' (get_rte_idx cv) Ho (Hc cv Hcv)) as (rte & Hrte & Hs).
  exists rte, (planned_scan q (Z.to_nat (get_rte_idx cv)) rte),
    (filter (fun c => get_rte_idx c = get_rte_idx cv)
            (collect_colvar_set q (snd (fst (where_groups q))))).
  specialize (Hc cv Hcv).
  split; [done|]. split; [done|]. split; [done|]. split; [|split].
  - simpl. unfold tles_for. rewrite Z2Nat.id by lia. done.
  - intros c Hin. apply list_elem_of_filter in Hin as [Hr Hin].
    split; [done|]. by apply collect_colvar_set_sound.
  - rewrite list_filter_filter_l.
    + by apply collect_colvar_set_once.
    + intros c [= Hr _]. done.
Qed.

End ColumnReferences.

Lemma column_references_deduplicated_witness :
  scan_stage_in_bounds Sql.join_query /\
  snd (fst (where_groups Sql.join_query)) = [Sql.a_eq_x] /\
  exists o', optimize_scans Sql.join_query Optimizer_init = Ok o' /\
    exists s cvs,
      vec_at (base_scans o') 1 = Ok s /\
      table_id s = 9 /\
      scan_targetlist s = (fun c => mkTargetEntry "" (Sql.ColVar c)) <$> cvs /\
      length (filter (fun c => colvar_key c = colvar_key Sql.u_x) cvs) = 1%nat.
Proof.
  assert (Hb: scan_stage_in_bounds Sql.join_query).
  { apply optimize_scans_defined. eexists. vm_compute. reflexivity. }
  split; [exact Hb|]. split; [reflexivity|].
  destruct (column_references_deduplicated Sql.join_query Hb) as (_ & o' & Ho & _ & Hall).
  exists o'. split; [exact Ho|].
  destruct (Hall Sql.u_x) as (rte & s & cvs & Hrte & Hs & Ht & Htl & _ & Hone).
  { apply list_elem_of_In. vm_compute. tauto. }
  exists s, cvs. split; [exact Hs|]. split; [|split; assumption].
  rewrite Ht. injection Hrte as <-. reflexivity.
Defined.

(** ** Join assembly *)

Section JoinAssembly.
Context {Expr : Type} `{ExprOps Expr}.

(** C2.  Whatever the rest of the optimizer state: with no base scan the
    stage sets the current plan to null; with exactly one base scan [s]
    the current plan is [s] itself, every member as it was; with two or
    more base scans the stage throws the "joins are not supported yet."
    runtime error, which is a NotSupported failure and not a fatal one.
    The base scans and the predicate lists are left as they were. *)
Theorem join_assembly_single_scan_only
        (p : option (Plan Expr)) (jp cps : list Expr)
        (s s1 s2 : Scan Expr) (rest : list (Scan Expr)) :
  optimize_joins (mkOptimizer p [] jp cps) = Ok (mkOptimizer None [] jp cps) /\
  optimize_joins (mkOptimizer p [s] jp cps)
    = Ok (mkOptimizer (Some (Plan_of_Scan s)) [s] jp cps) /\
  (targetlist (Plan_of_Scan s) = scan_targetlist s /\
   quals (Plan_of_Scan s) = scan_quals s /\
   child_plan (Plan_of_Scan s) = None /\
   node (Plan_of_Scan s) = ScanNode (Plan Expr) (simple_quals s) (table_id s) (col_list s)) /\
  optimize_joins (mkOptimizer p (s1 :: s2 :: rest) jp cps)
    = Err (NotSupported "joins are not supported yet.") /\
  is_fatal (NotSupported "joins are not supported yet.") = false.
Proof.
  repeat split.
Qed.

Lemma optimize_joins_Ok (o o' : Optimizer Expr) :
  optimize_joins o = Ok o' ->
  (base_scans o = [] /\ o' = set_cur_plan o None) \/
  (exists s, base_scans o = [s] /\ o' = set_cur_plan o (Some (Plan_of_Scan s))).
Proof.
  unfold optimize_joins. destruct (base_scans o) as [|s [|s' rest]] eqn:Hb; simpl.
  - intros [= <-]. auto.
  - intros [= <-]. right. eauto.
  - discriminate.
Qed.

Lemma optimize_joins_many (o : Optimizer Expr) :
  (2 <= length (base_scans o))%nat ->
  optimize_joins o = Err (NotSupported "joins are not supported yet.").
Proof.
  unfold optimize_joins. destruct (base_scans o) as [|s [|s' rest]]; simpl; [lia | lia | done].
Qed.

End JoinAssembly.

(** ** Aggregation planning *)

Lemma push_each_deref {A B T} (c : result T) (f : A -> T -> B) (xs : list A) :
  push_each (fun x => t <-- c ;; Ok (f x t)) xs
  = match xs with
    | [] => Ok []
    | _ :: _ => t <-- c ;; Ok ((fun x => f x t) <$> xs)
    end.
Proof.
  destruct c as [t|e]; [|by destruct xs].
  transitivity (Ok (A:=list B) ((fun x => f x t) <$> xs)); [|by destruct xs].
  induction xs as [|x xs IH]; [done|]. simpl in *. by rewrite IH.
Qed.

Lemma plan_depth_child {Expr} (p c : Plan Expr) :
  child_plan p = Some c -> plan_depth p = S (plan_depth c).
Proof. destruct p; simpl. by intros ->. Qed.

Section Aggregation.
Context {Expr : Type} `{ExprOps Expr}.

Lemma no_aggregation_test (q : Query Expr) :
  bool_decide (get_num_aggs q = 0) && is_nullptr (get_having_predicate q) = true
  <-> no_aggregation q.
Proof.
  unfold no_aggregation. rewrite andb_true_iff, bool_decide_eq_true.
  destruct (get_having_predicate q); simpl; split; intros [? ?]; done.
Qed.

Lemma having_quals_of_spec (q : Query Expr) agg_tlist :
  having_quals_of q agg_tlist
  = match having_others q with
    | [] => Ok (agg_having q agg_tlist)
    | _ :: _ => Err AssertionFailed
    end.
Proof.
  unfold having_quals_of, having_others, agg_having.
  destruct (get_having_predicate q) as [h|]; [|done].
  destruct (group_predicates h) as [[preds jp] cp]. simpl.
  by destruct (jp ++ cp).
Qed.

Lemma optimize_aggs_skip (q : Query Expr) (o : Optimizer Expr) :
  no_aggregation q -> optimize_aggs q o = Ok o.
Proof.
  intros Hn. unfold optimize_aggs.
  by rewrite (proj2 (no_aggregation_test q) Hn).
Qed.

(** The stage once it is triggered, loop by loop. *)
Lemma optimize_aggs_triggered (q : Query Expr) (o : Optimizer Expr) :
  ~ no_aggregation q ->
  optimize_aggs q o
  = (agg_tlist <-- match get_targetlist q with
                   | [] => Ok []
                   | _ :: _ => t <-- cur_plan_targetlist o ;; Ok (agg_targetlist q t)
                   end ;;
     groupby_list <-- match get_group_by q with
                      | Some (_ :: _) => t <-- cur_plan_targetlist o ;; Ok (agg_groupby q t)
                      | _ => Ok []
                      end ;;
     having_quals <-- having_quals_of q agg_tlist ;;
     Ok (set_cur_plan o (Some (AggPlan agg_tlist having_quals 0 (cur_plan o) groupby_list)))).
Proof.
  intros Hn. unfold optimize_aggs.
  destruct (bool_decide _ && is_nullptr _) eqn:Ht.
  { by apply no_aggregation_test in Ht. }
  rewrite (push_each_deref (cur_plan_targetlist o)
             (fun tle t => mkTargetEntry (get_resname tle)
                             (rewrite_with_child_targetlist (get_expr tle) t))).
  unfold agg_targetlist, agg_groupby.
  destruct (get_group_by q) as [g|]; [|done].
  rewrite (push_each_deref (cur_plan_targetlist o)
             (fun e t => rewrite_with_child_targetlist e t)).
  done.
Qed.

Lemma optimize_aggs_over_plan (q : Query Expr) (o : Optimizer Expr) child :
  ~ no_aggregation q ->
  cur_plan o = Some child ->
  optimize_aggs q o
  = match having_others q with
    | [] => Ok (set_cur_plan o (Some (planned_agg q o)))
    | _ :: _ => Err AssertionFailed
    end.
Proof.
  intros Hn Hc. rewrite optimize_aggs_triggered by done.
  unfold planned_agg, child_targetlist, cur_plan_targetlist. rewrite Hc. simpl.
  assert (Htl: match get_targetlist q with
               | [] => Ok []
               | _ :: _ => Ok (agg_targetlist q (targetlist child))
               end = Ok (agg_targetlist q (targetlist child))).
  { unfold agg_targetlist. by destruct (get_targetlist q). }
  assert (Hgb: match get_group_by q with
               | Some (_ :: _) => Ok (agg_groupby q (targetlist child))
               | _ => Ok []
               end = Ok (agg_groupby q (targetlist child))).
  { unfold agg_groupby. by destruct (get_group_by q) as [[|]|]. }
  rewrite Htl. simpl. rewrite Hgb. simpl. rewrite having_quals_of_spec.
  by destruct (having_others q).
Qed.

Lemma optimize_aggs_Ok (q : Query Expr) (o o' : Optimizer Expr) :
  ~ no_aggregation q ->
  optimize_aggs q o = Ok o' ->
  o' = set_cur_plan o (Some (planned_agg q o)) /\ having_others q = [].
Proof.
  intros Hn. destruct (cur_plan o) as [child|] eqn:Hc.
  - rewrite (optimize_aggs_over_plan q o child Hn Hc).
    destruct (having_others q); [|discriminate]. by intros [= <-].
  - rewrite optimize_aggs_triggered by done.
    unfold planned_agg, child_targetlist, cur_plan_targetlist. rewrite Hc. simpl.
    unfold agg_targetlist, agg_groupby.
    destruct (get_targetlist q); simpl; [|discriminate].
    destruct (get_group_by q) as [[|]|]; simpl; try discriminate;
      rewrite having_quals_of_spec; destruct (having_others q); simpl;
      try discriminate; by intros [= <-].
Qed.

Lemma optimize_aggs_null_plan (q : Query Expr) (o : Optimizer Expr) :
  ~ no_aggregation q ->
  cur_plan o = None ->
  get_targetlist q <> [] ->
  optimize_aggs q o = Err (Undefined NullDereference).
Proof.
  intros Hn Hc Htl. rewrite optimize_aggs_triggered by done.
  unfold cur_plan_targetlist. rewrite Hc.
  by destruct (get_targetlist q).
Qed.

Lemma optimize_aggs_having_others (q : Query Expr) (o : Optimizer Expr) :
  having_others q <> [] -> exists e, optimize_aggs q o = Err e.
Proof.
  intros Ho.
  assert (Hn: ~ no_aggregation q).
  { intros [_ Hh]. unfold having_others in Ho. by rewrite Hh in Ho. }
  rewrite optimize_aggs_triggered by done.
  destruct (match get_targetlist q with [] => _ | _ => _ end) as [tl|e]; simpl; [|eauto].
  destruct (match get_group_by q with Some (_ :: _) => _ | _ => _ end) as [gl|e];
    simpl; [|eauto].
  rewrite having_quals_of_spec. destruct (having_others q); [done|]. simpl. eauto.
Qed.

(** C3.  The aggregation stage returns the optimizer state it was given
    if and only if the query declares no aggregate and no HAVING
    predicate.  Otherwise, over a current plan [child] and a HAVING
    predicate (if any) with scan-classified conjuncts only, it completes
    and the current plan becomes a new AggPlan whose child is [child],
    whose target list is the query target list rewritten against
    [child]'s target list under the same names, whose quals are the
    HAVING conjuncts rewritten against that new target list, and whose
    group-by list is the rewritten group-by list; and whenever the
    triggered stage completes, its result is that AggPlan over the
    previous current plan. *)
Theorem aggregation_stage (q : Query Expr) (o : Optimizer Expr) :
  (optimize_aggs q o = Ok o <-> no_aggregation q) /\
  (forall child,
     ~ no_aggregation q -> cur_plan o = Some child -> having_others q = [] ->
     optimize_aggs q o
     = Ok (set_cur_plan o
             (Some (AggPlan (agg_targetlist q (targetlist child))
                            (agg_having q (agg_targetlist q (targetlist child)))
                            0 (Some child)
                            (agg_groupby q (targetlist child)))))) /\
  (forall o',
     ~ no_aggregation q -> optimize_aggs q o = Ok o' ->
     cur_plan o' = Some (planned_agg q o) /\
     child_plan (planned_agg q o) = cur_plan o /\
     targetlist (planned_agg q o) = agg_targetlist q (child_targetlist o) /\
     quals (planned_agg q o) = agg_having q (agg_targetlist q (child_targetlist o)) /\
     node (planned_agg q o) = AggPlanNode (Plan Expr) (agg_groupby q (child_targetlist o)) /\
     base_scans o' = base_scans o).
Proof.
  split; [split|split].
  - intros Hok.
    destruct (bool_decide (get_num_aggs q = 0) && is_nullptr (get_having_predicate q))
      eqn:Ht; [by apply no_aggregation_test|].
    assert (Hn: ~ no_aggregation q).
    { intros Hn. apply no_aggregation_test in Hn. congruence. }
    destruct (optimize_aggs_Ok q o o Hn Hok) as [Ho _].
    apply (f_equal cur_plan) in Ho. simpl in Ho.
    assert (Hd: child_plan (planned_agg q o) = Some (planned_agg q o)) by (by rewrite <- Ho).
    apply plan_depth_child in Hd. lia.
  - apply optimize_aggs_skip.
  - intros child Hn Hc Ho. rewrite (optimize_aggs_over_plan q o child Hn Hc), Ho.
    unfold planned_agg, child_targetlist. by rewrite Hc.
  - intros o' Hn Hok. destruct (optimize_aggs_Ok q o o' Hn Hok) as [-> _]. done.
Qed.

End Aggregation.

Lemma aggregation_stage_witness :
  exists scan agg,
    optimize_joins (mkOptimizer None [scan] [] []) = Ok (mkOptimizer (Some (Plan_of_Scan scan)) [scan] [] []) /\
    optimize_aggs Sql.group_query (mkOptimizer (Some (Plan_of_Scan scan)) [scan] [] [])
    = Ok (mkOptimizer (Some agg) [scan] [] []) /\
    child_plan agg = Some (Plan_of_Scan scan) /\
    node agg = AggPlanNode (Plan Sql.Expr) [Sql.Var 2].
Proof.
  exists (planned_scan Sql.group_query 0 Sql.t).
  eexists. split; [reflexivity|]. split.
  - apply (proj1 (proj2 (aggregation_stage Sql.group_query
                           (mkOptimizer (Some (Plan_of_Scan (planned_scan Sql.group_query 0 Sql.t)))
                                        [planned_scan Sql.group_query 0 Sql.t] [] [])))).
    + intros [Hn _]. vm_compute in Hn. discriminate.
    + reflexivity.
    + reflexivity.
  - split; vm_compute; reflexivity.
Defined.

(** ** Final projection *)

Section Projection.
Context {Expr : Type} `{ExprOps Expr}.

(** C4.  [process_targetlist] always completes.  Without a current plan
    the new current plan is a ValuesScan holding the query's target
    entries with their names and deep copies of their expressions, not
    rewritten.  With a current plan [p] the current plan is still [p] --
    same quals, cost, child and derived members -- except that its old
    target list is gone: its target list is now the query's target
    entries, each rewritten against the old target list of [p].  The
    join and constant predicates the optimizer recorded are left as they
    were. *)
Theorem final_projection (q : Query Expr) (o : Optimizer Expr) :
  (cur_plan o = None ->
   cur_plan (process_targetlist q o) = Some (ValuesScan (copied_targetlist q)) /\
   targetlist (ValuesScan (copied_targetlist q))
   = (fun tle => mkTargetEntry (get_resname tle) (deep_copy (get_expr tle)))
       <$> get_targetlist q) /\
  (forall p, cur_plan o = Some p ->
     exists p', cur_plan (process_targetlist q o) = Some p' /\
       p' = set_targetlist p (rewritten_targetlist q p) /\
       targetlist p'
       = (fun tle => mkTargetEntry (get_resname tle)
                       (rewrite_with_targetlist (get_expr tle) (targetlist p)))
           <$> get_targetlist q /\
       quals p' = quals p /\ cost p' = cost p /\
       child_plan p' = child_plan p /\ node p' = node p) /\
  join_predicates (process_targetlist q o) = join_predicates o /\
  const_predicates (process_targetlist q o) = const_predicates o.
Proof.
  unfold process_targetlist, copied_targetlist, rewritten_targetlist.
  destruct (cur_plan o) as [p|]; simpl.
  - split; [discriminate|]. split; [|done].
    intros p' [= <-]. eexists. split; [reflexivity|]. done.
  - split; [done|]. split; [discriminate | done].
Qed.

Lemma process_targetlist_plan (q : Query Expr) (o : Optimizer Expr) :
  exists p, cur_plan (process_targetlist q o) = Some p.
Proof.
  unfold process_targetlist. destruct (cur_plan o); simpl; eauto.
Qed.

End Projection.

Lemma final_projection_witness :
  cur_plan (process_targetlist Sql.constant_query Optimizer_init)
  = Some (ValuesScan [mkTargetEntry "" (Sql.BinOper Sql.kPLUS (Sql.Constant 1) (Sql.Constant 1))]) /\
  exists p', cur_plan (process_targetlist Sql.where_query
                         (mkOptimizer (Some (Plan_of_Scan (planned_scan Sql.where_query 0 Sql.t)))
                                      [] [] []))
             = Some p' /\
             targetlist p' = [mkTargetEntry "a" (Sql.Var 1)] /\
             node p' = ScanNode (Plan Sql.Expr) [Sql.a_gt_5] 7 [1; 2].
Proof.
  split.
  - destruct (proj1 (final_projection Sql.constant_query Optimizer_init) eq_refl)
      as [Hv _].
    exact Hv.
  - destruct (proj1 (proj2 (final_projection Sql.where_query
                (mkOptimizer (Some (Plan_of_Scan (planned_scan Sql.where_query 0 Sql.t)))
                             [] [] [])))
                (Plan_of_Scan (planned_scan Sql.where_query 0 Sql.t)) eq_refl)
      as (p' & Hp' & _ & Htl & _ & _ & _ & Hnode).
    exists p'. split; [exact Hp'|]. split.
    + rewrite Htl. vm_compute. reflexivity.
    + rewrite Hnode. vm_compute. reflexivity.
Defined.

(** ** The pipeline *)

Section Pipeline.
Context {Expr : Type} `{ExprOps Expr}.

Lemma optimize_query_union (q : Query Expr) (o : Optimizer Expr) next :
  get_next_query q = Some next ->
  optimize_query q o = Err (NotSupported "UNION queries are not supported yet.").
Proof. unfold optimize_query. by intros ->. Qed.

Lemma optimize_query_single (q : Query Expr) (o : Optimizer Expr) :
  get_next_query q = None ->
  optimize_query q o
  = (o1 <-- optimize_current_query q o ;;
     match get_order_by q with
     | Some _ => Err (NotSupported "order by not supported yet.")
     | None => Ok (cur_plan o1)
     end).
Proof.
  unfold optimize_query, optimize_orderby. intros ->. simpl.
  destruct (optimize_current_query q o) as [o1|e]; simpl; [|done].
  by destruct (get_order_by q).
Qed.

Lemma optimize_Ok (q : Query Expr) rp :
  optimize q = Ok rp ->
  exists dest o,
    result_table q = Ok dest /\
    get_next_query q = None /\
    get_order_by q = None /\
    optimize_current_query q Optimizer_init = Ok o /\
    rp = mkRootPlan (cur_plan o) (get_stmt_type q) (fst dest) (snd dest).
Proof.
  unfold optimize. intros Hrp.
  apply bind_Ok in Hrp as (dest & Hd & Hrp).
  apply bind_Ok in Hrp as (plan & Hq & Hrp). injection Hrp as <-.
  destruct (get_next_query q) as [next|] eqn:Hn.
  { by rewrite (optimize_query_union q _ next Hn) in Hq. }
  rewrite optimize_query_single in Hq by done.
  apply bind_Ok in Hq as (o & Ho & Hq).
  destruct (get_order_by q); [discriminate|]. injection Hq as <-.
  exists dest, o. done.
Qed.

Lemma optimize_current_query_Ok (q : Query Expr) o :
  optimize_current_query q Optimizer_init = Ok o ->
  exists o1 o2 o3,
    optimize_scans q Optimizer_init = Ok o1 /\
    optimize_joins o1 = Ok o2 /\
    optimize_aggs q o2 = Ok o3 /\
    o = process_targetlist q o3.
Proof.
  unfold optimize_current_query. intros Ho.
  apply bind_Ok in Ho as (o1 & H1 & Ho).
  apply bind_Ok in Ho as (o2 & H2 & Ho).
  apply bind_Ok in Ho as (o3 & H3 & Ho). injection Ho as <-.
  exists o1, o2, o3. done.
Qed.

(** The pipeline up to the aggregation stage, for a statement with a
    destination, no UNION link and a completed scan stage. *)
Lemma optimize_through_joins (q : Query Expr) dest o1 :
  result_table q = Ok dest ->
  get_next_query q = None ->
  optimize_scans q Optimizer_init = Ok o1 ->
  optimize q
  = (plan <-- (o <-- (o2 <-- optimize_joins o1 ;;
                      o3 <-- optimize_aggs q o2 ;;
                      Ok (process_targetlist q o3)) ;;
               match get_order_by q with
               | Some _ => Err (NotSupported "order by not supported yet.")
               | None => Ok (cur_plan o)
               end) ;;
     Ok (mkRootPlan plan (get_stmt_type q) (fst dest) (snd dest))).
Proof.
  intros Hd Hn Hs. unfold optimize. rewrite Hd. simpl.
  rewrite optimize_query_single by done.
  unfold optimize_current_query. rewrite Hs. done.
Qed.

(** C7.  For an INSERT whose range table is [rte :: rest]: base-scan
    construction yields one scan per entry of [rest], in order, and none
    for [rte]; the scans the scan stage leaves carry the table ids and
    column lists of [rest]; and whenever the query is planned, the
    RootPlan is an INSERT root whose destination table id is [rte]'s and
    whose destination column ids are the ids of [rte]'s column
    descriptors, in descriptor order. *)
Theorem insert_destination_first_entry (q : Query Expr) rte rest :
  get_stmt_type q = kINSERT ->
  get_rangetable q = rte :: rest ->
  build_base_scans (Expr:=Expr) (get_stmt_type q) true (get_rangetable q) []
  = Scan_of_rte <$> rest /\
  (forall o', optimize_scans q Optimizer_init = Ok o' ->
     table_id <$> base_scans o' = get_table_id <$> rest /\
     col_list <$> base_scans o'
     = (fun r => columnId <$> get_column_descs r) <$> rest) /\
  (forall plan, optimize_query q Optimizer_init = Ok plan ->
     optimize q
     = Ok (mkRootPlan plan kINSERT (get_table_id rte)
                      (columnId <$> get_column_descs rte))) /\
  (forall e, optimize_query q Optimizer_init = Err e -> optimize q = Err e).
Proof.
  intros Hi Hrt.
  assert (Hse: scanned_entries q = rest).
  { unfold scanned_entries. rewrite Hi, Hrt. done. }
  split; [|split; [|split]].
  - by rewrite build_base_scans_spec, Hse.
  - intros o' Ho. apply optimize_scans_Ok in Ho as [Hlen Hlk]. rewrite Hse in *.
    split; apply list_eq; intros i; rewrite !list_lookup_fmap;
      destruct (base_scans o' !! i) as [s|] eqn:Hs; simpl.
    + destruct (Hlk _ _ Hs) as (r & -> & ->). done.
    + apply lookup_ge_None in Hs. rewrite Hlen in Hs.
      apply lookup_ge_None in Hs. by rewrite Hs.
    + destruct (Hlk _ _ Hs) as (r & -> & ->). done.
    + apply lookup_ge_None in Hs. rewrite Hlen in Hs.
      apply lookup_ge_None in Hs. by rewrite Hs.
  - intros plan Hp. unfold optimize, result_table. rewrite Hi, Hrt. simpl.
    rewrite Hp. done.
  - intros e He. unfold optimize, result_table. rewrite Hi, Hrt. simpl.
    rewrite He. done.
Qed.

(** C6, as the code has it.  A query with an ORDER BY is never planned.
    When the statement has a destination, no UNION link, and the scan,
    join, aggregation and projection stages complete, the failure is the
    "order by not supported yet." NotSupported error; any failure that is
    not a NotSupported one was raised before the order-by stage, by the
    statement-kind switch or by one of those stages. *)
Theorem order_by_never_planned (q : Query Expr) ob :
  get_order_by q = Some ob ->
  (forall rp, optimize q <> Ok rp) /\
  (forall dest o,
     result_table q = Ok dest ->
     get_next_query q = None ->
     optimize_current_query q Optimizer_init = Ok o ->
     optimize q = Err (NotSupported "order by not supported yet.")) /\
  (forall e, optimize q = Err e ->
     is_NotSupported e = true \/
     result_table q = Err e \/
     optimize_current_query q Optimizer_init = Err e).
Proof.
  intros Hob. split; [|split].
  - intros rp Hrp. apply optimize_Ok in Hrp as (_ & _ & _ & _ & Hnone & _). congruence.
  - intros dest o Hd Hn Ho. unfold optimize. rewrite Hd. simpl.
    rewrite optimize_query_single by done. rewrite Ho, Hob. done.
  - intros e He. unfold optimize in He.
    destruct (result_table q) as [dest|e'] eqn:Hd; simpl in He;
      [|injection He as ->; auto].
    destruct (get_next_query q) as [next|] eqn:Hn.
    + rewrite (optimize_query_union q _ next Hn) in He. simpl in He.
      injection He as <-. by left.
    + rewrite optimize_query_single in He by done.
      destruct (optimize_current_query q Optimizer_init) as [o|e'] eqn:Ho;
        simpl in He; [|injection He as ->; auto].
      rewrite Hob in He. simpl in He. injection He as <-. by left.
Qed.

(** C5, as the code has it.  A query whose HAVING predicate decomposes
    into at least one join- or constant-classified conjunct is never
    planned.  The aggregation stage, run over a current plan, fails by
    assertion, which is fatal and is not a NotSupported failure; so does
    the whole of [optimize] when the statement has a destination, no
    UNION link, and the scan stage leaves exactly one base scan.  With
    two or more base scans, or with a UNION link, planning fails with
    NotSupported before the aggregation stage is reached. *)
Theorem having_contract (q : Query Expr) :
  having_others q <> [] ->
  (forall rp, optimize q <> Ok rp) /\
  (forall o child, cur_plan o = Some child -> optimize_aggs q o = Err AssertionFailed) /\
  (is_fatal AssertionFailed = true /\ is_NotSupported AssertionFailed = false) /\
  (forall dest o1 s,
     result_table q = Ok dest -> get_next_query q = None ->
     optimize_scans q Optimizer_init = Ok o1 -> base_scans o1 = [s] ->
     optimize q = Err AssertionFailed) /\
  (forall dest o1,
     result_table q = Ok dest -> get_next_query q = None ->
     optimize_scans q Optimizer_init = Ok o1 -> (2 <= length (base_scans o1))%nat ->
     optimize q = Err (NotSupported "joins are not supported yet.")) /\
  (forall dest next,
     result_table q = Ok dest -> get_next_query q = Some next ->
     optimize q = Err (NotSupported "UNION queries are not supported yet.")).
Proof.
  intros Hh.
  assert (Hn: ~ no_aggregation q).
  { intros [_ Hnone]. unfold having_others in Hh. by rewrite Hnone in Hh. }
  assert (Hagg: forall o child, cur_plan o = Some child ->
                                optimize_aggs q o = Err AssertionFailed).
  { intros o child Hc. rewrite (optimize_aggs_over_plan q o child Hn Hc).
    by destruct (having_others q). }
  split; [|split; [exact Hagg|split; [done|split; [|split]]]].
  - intros rp Hrp. apply optimize_Ok in Hrp as (_ & o & _ & _ & _ & Ho & _).
    apply optimize_current_query_Ok in Ho as (o1 & o2 & o3 & _ & _ & Ha & _).
    destruct (optimize_aggs_having_others q o2 Hh) as [e He]. congruence.
  - intros dest o1 s Hd Hnx Hs Hb.
    rewrite (optimize_through_joins q dest o1 Hd Hnx Hs).
    unfold optimize_joins. rewrite Hb. simpl.
    rewrite (Hagg _ (Plan_of_Scan s)); done.
  - intros dest o1 Hd Hnx Hs Hb.
    rewrite (optimize_through_joins q dest o1 Hd Hnx Hs).
    by rewrite optimize_joins_many.
  - intros dest next Hd Hnx. unfold optimize. rewrite Hd. simpl.
    by rewrite (optimize_query_union q _ next Hnx).
Qed.

(** A column of the last range-table entry of an INSERT is attached past
    the end of [base_scans]. *)
Lemma insert_last_index_out_of_bounds (q : Query Expr) cv o' :
  get_stmt_type q = kINSERT ->
  cv ∈ referenced_column_vars q (snd (fst (where_groups q))) ->
  get_rte_idx cv = Z.of_nat (length (get_rangetable q)) - 1 ->
  optimize_scans q Optimizer_init <> Ok o'.
Proof.
  intros Hi Hcv Hlast Ho.
  assert (Hb: scan_stage_in_bounds q) by (apply optimize_scans_defined; eauto).
  destruct Hb as [_ Hc]. specialize (Hc cv Hcv).
  rewrite build_base_scans_spec, length_fmap in Hc.
  unfold scanned_entries in Hc. rewrite Hi in Hc. simpl in Hc.
  destruct (get_rangetable q); simpl in *; lia.
Qed.

End Pipeline.

(** ** The pipeline on the sample queries *)

(** A filtered single-table SELECT: the comparison is pushed to the
    scan's [simple_quals] and the output column refers to position 1. *)
Example plan_simple_query :
  optimize Sql.simple_query
  = Ok (mkRootPlan
          (Some (mkPlan [mkTargetEntry "a" (Sql.Var 1)] [] 0 None
                        (ScanNode (Plan Sql.Expr) [Sql.a_gt_5] 7 [1; 2])))
          kSELECT 0 []).
Proof. vm_compute. reflexivity. Qed.

(** A grouped count: an AggPlan over the scan, which outputs the one
    column the grouping needs. *)
Example plan_count_by_b :
  optimize Sql.count_by_b
  = Ok (mkRootPlan
          (Some (mkPlan [mkTargetEntry "n" Sql.count_all] [] 0
                        (Some (mkPlan [mkTargetEntry "" (Sql.ColVar Sql.t_b)] [] 0 None
                                      (ScanNode (Plan Sql.Expr) [] 7 [1; 2])))
                        (AggPlanNode (Plan Sql.Expr) [Sql.Var 1])))
          kSELECT 0 []).
Proof. vm_compute. reflexivity. Qed.

(** A constant-only SELECT: a ValuesScan holding the copied target list. *)
Example plan_constant_query :
  optimize Sql.constant_query
  = Ok (mkRootPlan
          (Some (ValuesScan
                   [mkTargetEntry "" (Sql.BinOper Sql.kPLUS (Sql.Constant 1) (Sql.Constant 1))]))
          kSELECT 0 []).
Proof. vm_compute. reflexivity. Qed.

(** INSERT of constants: the destination is read off range-table slot 0,
    which gets no base scan. *)
Example plan_insert_values :
  optimize Sql.insert_values
  = Ok (mkRootPlan
          (Some (ValuesScan [mkTargetEntry "" (Sql.Constant 1);
                             mkTargetEntry "" (Sql.Constant 2)]))
          kINSERT 7 [1; 2]).
Proof. vm_compute. reflexivity. Qed.

Lemma insert_destination_first_entry_witness :
  get_stmt_type Sql.insert_from_u = kINSERT /\
  get_rangetable Sql.insert_from_u = Sql.t :: [Sql.u] /\
  build_base_scans (Expr:=Sql.Expr) kINSERT true [Sql.t; Sql.u] [] = [Scan_of_rte Sql.u] /\
  exists plan, optimize Sql.insert_from_u = Ok (mkRootPlan (Some plan) kINSERT 7 [1; 2]).
Proof.
  destruct (insert_destination_first_entry Sql.insert_from_u Sql.t [Sql.u] eq_refl eq_refl)
    as (Hb & _ & Hplan & _).
  split; [reflexivity|]. split; [reflexivity|]. split; [exact Hb|].
  eexists. apply Hplan. vm_compute. reflexivity.
Defined.

Lemma order_by_never_planned_witness :
  get_order_by Sql.order_by_query = Some [mkOrderEntry 1 false false] /\
  optimize Sql.order_by_query = Err (NotSupported "order by not supported yet.").
Proof.
  split; [reflexivity|].
  destruct (order_by_never_planned Sql.order_by_query [mkOrderEntry 1 false false] eq_refl)
    as (_ & Hns & _).
  eapply (Hns (0, [])); [reflexivity | reflexivity | vm_compute; reflexivity].
Defined.

(** C6 as stated fails.  A query with an ORDER BY whose HAVING predicate
    is the constant conjunct [1 = 1] fails by assertion in the
    aggregation stage, before the order-by stage is reached: not every
    ORDER BY query fails with NotSupported. *)
Lemma order_by_assertion_first :
  get_order_by Sql.order_by_having_constant <> None /\
  optimize Sql.order_by_having_constant = Err AssertionFailed /\
  ~ (forall q : Query Sql.Expr,
       get_order_by q <> None -> exists what, optimize q = Err (NotSupported what)).
Proof.
  split; [discriminate|]. split; [vm_compute; reflexivity|].
  intros Hall.
  destruct (Hall Sql.order_by_having_constant) as [what Hw]; [discriminate|].
  vm_compute in Hw. discriminate.
Qed.

Lemma having_contract_witness :
  having_others Sql.having_constant <> [] /\
  optimize Sql.having_constant = Err AssertionFailed.
Proof.
  assert (Hh: having_others Sql.having_constant <> []) by (vm_compute; discriminate).
  split; [exact Hh|].
  destruct (having_contract Sql.having_constant Hh) as (_ & _ & _ & Hone & _).
  eapply (Hone (0, [])); [reflexivity | reflexivity | vm_compute; reflexivity | reflexivity].
Defined.

(** C5 as stated fails.  A HAVING predicate with the cross-table conjunct
    [t.a = u.x] over the two tables it names: join assembly throws
    NotSupported before the aggregation stage can assert, so not every
    such query fails fatally. *)
Lemma having_cross_table_not_fatal :
  having_others Sql.having_cross_table <> [] /\
  optimize Sql.having_cross_table = Err (NotSupported "joins are not supported yet.") /\
  ~ (forall q : Query Sql.Expr,
       having_others q <> [] -> exists e, optimize q = Err e /\ is_fatal e = true).
Proof.
  split; [vm_compute; discriminate|]. split; [vm_compute; reflexivity|].
  intros Hall.
  destruct (Hall Sql.having_cross_table) as (e & He & Hf); [vm_compute; discriminate|].
  vm_compute in He. injection He as <-. discriminate.
Qed.

(** C1 fails on the code, by the defect of C10.  In INSERT INTO t SELECT 1
    FROM u, v WHERE u.x > 5 the range table is [t; u; v] and base-scan
    construction skips [t], so the base scans are those of [u] (table 9)
    and [v] (table 11).  The conjunct [u.x > 5] is a scan predicate that
    normalizes under range-table index 1; [base_scans[1]] is the scan of
    [v], and that scan, not the scan of [u], receives it. *)
Theorem insert_predicate_on_other_scan :
  get_rangetable Sql.insert_filtered !! 1%nat = Some Sql.u /\
  scan_predicates Sql.insert_filtered = [Sql.x_gt_5] /\
  normalize_simple_predicate Sql.x_gt_5 = Some (1, Sql.x_gt_5) /\
  exists o', optimize_scans Sql.insert_filtered Optimizer_init = Ok o' /\
    (fun s => (table_id s, simple_quals s, scan_quals s)) <$> base_scans o'
    = [(9, [], []); (11, [Sql.x_gt_5], [])].
Proof.
  split; [reflexivity|]. split; [reflexivity|]. split; [reflexivity|].
  eexists. split; [vm_compute; reflexivity | reflexivity].
Qed.

(** C8 fails on the code, by the defect of C10.  In INSERT INTO t SELECT
    u.x FROM u, v the only column referenced is [u.x], of range-table
    index 1; the base scans are those of [u] (table 9) and [v] (table
    11), and the target entry for [u.x] is appended to [base_scans[1]],
    the scan of [v]: the scan owning the column receives none. *)
Theorem insert_column_on_other_scan :
  get_rangetable Sql.insert_two_sources !! 1%nat = Some Sql.u /\
  referenced_column_vars Sql.insert_two_sources [] = [Sql.u_x] /\
  get_rte_idx Sql.u_x = 1 /\
  exists o', optimize_scans Sql.insert_two_sources Optimizer_init = Ok o' /\
    (fun s => (table_id s, scan_targetlist s)) <$> base_scans o'
    = [(9, []); (11, [mkTargetEntry "" (Sql.ColVar Sql.u_x)])].
Proof.
  split; [reflexivity|]. split; [reflexivity|]. split; [reflexivity|].
  eexists. split; [vm_compute; reflexivity | reflexivity].
Qed.

(** C9 fails on the code.  An aggregate query without a FROM clause has no
    base scan; join assembly leaves the current plan null, and the
    aggregation stage, which unlike [process_targetlist] does not test
    for a null plan, reads the target list through it. *)
Theorem aggregate_without_from_null_plan :
  (exists o1 o2,
     optimize_scans Sql.count_without_from Optimizer_init = Ok o1 /\
     base_scans o1 = [] /\
     optimize_joins o1 = Ok o2 /\
     cur_plan o2 = None /\
     optimize_aggs Sql.count_without_from o2 = Err (Undefined NullDereference)) /\
  optimize Sql.count_without_from = Err (Undefined NullDereference).
Proof.
  split; [|vm_compute; reflexivity].
  eexists. eexists. split; [vm_compute; reflexivity|].
  split; [reflexivity|]. split; [vm_compute; reflexivity|].
  split; [reflexivity|]. vm_compute; reflexivity.
Qed.

(** C10 fails on the code.  In INSERT INTO t SELECT x FROM u the range
    table is [t; u], base-scan construction skips [t], and the reference
    to [u.x] carries range-table index 1; the only base scan is at
    index 0, so the attachment subscripts [base_scans] out of range. *)
Theorem insert_select_scan_out_of_bounds :
  get_rangetable Sql.insert_select !! 1%nat = Some Sql.u /\
  get_rte_idx Sql.u_x = 1 /\
  build_base_scans (Expr:=Sql.Expr) kINSERT true (get_rangetable Sql.insert_select) []
  = [Scan_of_rte Sql.u] /\
  attach_colvar (Expr:=Sql.Expr) [Scan_of_rte Sql.u] Sql.u_x = Err (Undefined OutOfBounds) /\
  optimize_scans Sql.insert_select Optimizer_init = Err (Undefined OutOfBounds) /\
  optimize Sql.insert_select = Err (Undefined OutOfBounds).
Proof.
  repeat split; vm_compute; reflexivity.
Qed.

(** * Further properties of the planner *)

(** ** The pipeline in closed form *)

Section PlannedPipeline.
Context {Expr : Type} `{ExprOps Expr}.

Lemma optimize_scans_state (q : Query Expr) o' :
  optimize_scans q Optimizer_init = Ok o' ->
  o' = mkOptimizer None (planned_base_scans q)
                   (snd (fst (where_groups q))) (snd (where_groups q)).
Proof.
  intros Ho.
  pose proof (proj1 (optimize_scans_loops q o') Ho) as (_ & _ & _ & Hc & Hj & Hk).
  apply optimize_scans_Ok in Ho as [Hlen Hlk].
  assert (Hb: base_scans o' = planned_base_scans q).
  { apply list_eq. intros i. unfold planned_base_scans. rewrite list_lookup_imap.
    destruct (base_scans o' !! i) as [s|] eqn:Hs.
    - destruct (Hlk _ _ Hs) as (rte & -> & ->). done.
    - apply lookup_ge_None in Hs. rewrite Hlen in Hs.
      apply lookup_ge_None in Hs. by rewrite Hs. }
  destruct o'; simpl in *. congruence.
Qed.

Lemma optimize_scans_planned (q : Query Expr) :
  scan_stage_in_bounds q ->
  optimize_scans q Optimizer_init
  = Ok (mkOptimizer None (planned_base_scans q)
                    (snd (fst (where_groups q))) (snd (where_groups q))).
Proof.
  intros Hb. destruct (proj1 (optimize_scans_defined q) Hb) as [o' Ho].
  rewrite Ho. f_equal. by apply optimize_scans_state.
Qed.

(** The scan stage fails only by undefined behaviour. *)
Lemma optimize_scans_Err (q : Query Expr) e :
  optimize_scans q Optimizer_init = Err e -> exists ub, e = Undefined ub.
Proof.
  assert (Hup: forall (v : list (Scan Expr)) i f e',
             vec_update v i f = Err e' -> exists ub, e' = Undefined ub).
  { intros v i f e'. unfold vec_update.
    destruct (vec_at v i) as [x|e''] eqn:Hx; simpl; [discriminate|].
    intros [= <-]. apply vec_at_Err in Hx as [-> _]. eauto. }
  assert (Hp: forall ps (v : list (Scan Expr)) e',
             for_each attach_scan_predicate ps v = Err e' -> exists ub, e' = Undefined ub).
  { induction ps as [|p ps IH]; simpl; intros v e' He; [discriminate|].
    destruct (attach_scan_predicate v p) as [v1|e1] eqn:Hs; simpl in He; [eauto|].
    injection He as <-. unfold attach_scan_predicate in Hs.
    destruct (normalize_simple_predicate p) as [[j sp]|]; [eauto|].
    unfold first_rte_idx in Hs.
    destruct (set_insert_all Z.ltb (collect_rte_idx p) []); simpl in Hs; [|eauto].
    injection Hs as <-. eauto. }
  assert (Hc: forall cs (v : list (Scan Expr)) e',
             for_each attach_colvar cs v = Err e' -> exists ub, e' = Undefined ub).
  { induction cs as [|c cs IH]; simpl; intros v e' He; [discriminate|].
    destruct (attach_colvar v c) as [v1|e1] eqn:Hs; simpl in He; [eauto|].
    injection He as <-. unfold attach_colvar in Hs. eauto. }
  unfold optimize_scans. destruct (where_groups q) as [[sp jp] cp].
  destruct (for_each attach_scan_predicate sp _) as [s1|e1] eqn:H1; simpl.
  - destruct (for_each attach_colvar _ s1) as [s2|e2] eqn:H2; simpl; [discriminate|].
    intros [= <-]. eauto.
  - intros [= <-]. eauto.
Qed.

Lemma planned_base_scans_length (q : Query Expr) :
  length (planned_base_scans q) = length (scanned_entries q).
Proof. apply length_imap. Qed.

Lemma optimize_joins_planned (q : Query Expr) jp cp :
  (length (scanned_entries q) <= 1)%nat ->
  optimize_joins (mkOptimizer None (planned_base_scans q) jp cp)
  = Ok (mkOptimizer (joined_plan q) (planned_base_scans q) jp cp).
Proof.
  unfold planned_base_scans, joined_plan.
  destruct (scanned_entries q) as [|rte [|rte' rest]]; simpl; [done | done | lia].
Qed.

Lemma optimize_joins_too_many (q : Query Expr) jp cp :
  (2 <= length (scanned_entries q))%nat ->
  optimize_joins (mkOptimizer None (planned_base_scans q) jp cp)
  = Err (NotSupported "joins are not supported yet.").
Proof.
  intros Hl. apply optimize_joins_many. simpl. by rewrite planned_base_scans_length.
Qed.

Lemma joined_plan_None (q : Query Expr) :
  joined_plan q = None <-> scanned_entries q = [].
Proof. unfold joined_plan. by destruct (scanned_entries q). Qed.

(** The aggregation stage over the plan join assembly leaves. *)
Lemma optimize_aggs_planned (q : Query Expr) sc jp cp :
  aggregation_defined q ->
  optimize_aggs q (mkOptimizer (joined_plan q) sc jp cp)
  = Ok (mkOptimizer (aggregated_plan q) sc jp cp).
Proof.
  intros Hd. unfold aggregated_plan.
  destruct (bool_decide (get_num_aggs q = 0) && is_nullptr (get_having_predicate q)) eqn:Ht.
  { apply no_aggregation_test in Ht. by apply optimize_aggs_skip. }
  assert (Hn: ~ no_aggregation q).
  { intros Hn. apply no_aggregation_test in Hn. congruence. }
  destruct Hd as [?|[Hh Hd]]; [done|].
  destruct (joined_plan q) as [child|] eqn:Hj.
  - rewrite (optimize_aggs_over_plan q (mkOptimizer (Some child) sc jp cp) child Hn eq_refl), Hh.
    done.
  - destruct Hd as [Hs|[Htl Hg]]; [by apply joined_plan_None in Hj|].
    rewrite optimize_aggs_triggered by done. rewrite Htl. simpl.
    unfold agg_over, agg_targetlist, agg_groupby. rewrite Htl.
    destruct Hg as [Hg|Hg]; rewrite Hg; simpl;
      rewrite having_quals_of_spec, Hh; done.
Qed.

Lemma optimize_aggs_planned_Err (q : Query Expr) sc jp cp :
  ~ aggregation_defined q ->
  optimize_aggs q (mkOptimizer (joined_plan q) sc jp cp)
  = Err (match joined_plan q, get_targetlist q, get_group_by q with
         | None, _ :: _, _ | None, [], Some (_ :: _) => Undefined NullDereference
         | _, _, _ => AssertionFailed
         end).
Proof.
  intros Hd.
  assert (Hn: ~ no_aggregation q) by (intros Hn; apply Hd; by left).
  destruct (joined_plan q) as [child|] eqn:Hj.
  - rewrite (optimize_aggs_over_plan q (mkOptimizer (Some child) sc jp cp) child Hn eq_refl).
    destruct (having_others q) eqn:Hh; [|done].
    exfalso. apply Hd. right. split; [done|]. left. intros Hs.
    apply joined_plan_None in Hs. congruence.
  - rewrite optimize_aggs_triggered by done. unfold cur_plan_targetlist. simpl.
    destruct (get_targetlist q) as [|tle tl] eqn:Htl; simpl; [|done].
    destruct (get_group_by q) as [[|e g]|] eqn:Hg; simpl; try done;
      rewrite having_quals_of_spec; (destruct (having_others q) eqn:Hh; [|done]);
      exfalso; apply Hd; right; (split; [done|]); right; (split; [done|]);
      unfold no_group_by; rewrite Hg; auto.
Qed.

Lemma aggregation_defined_dec (q : Query Expr) :
  aggregation_defined q \/ ~ aggregation_defined q.
Proof.
  unfold aggregation_defined, no_group_by.
  destruct (bool_decide (get_num_aggs q = 0) && is_nullptr (get_having_predicate q)) eqn:Ht.
  { left. left. by apply no_aggregation_test. }
  assert (Hn: ~ no_aggregation q).
  { intros Hn. apply no_aggregation_test in Hn. congruence. }
  destruct (having_others q) as [|x l]; [|right; intros [?|[? _]]; done].
  destruct (scanned_entries q) as [|rte rest]; [|left; right; split; [done|]; by left].
  destruct (get_targetlist q) as [|tle tl];
    [|right; intros [?|[_ [?|[? _]]]]; done].
  destruct (get_group_by q) as [[|e g]|].
  - left. right. split; [done|]. right. auto.
  - right. intros [?|[_ [?|[_ [?|?]]]]]; done.
  - left. right. split; [done|]. right. auto.
Qed.

Lemma process_targetlist_planned (q : Query Expr) (o : Optimizer Expr) :
  cur_plan (process_targetlist q o) = Some (projected_plan q (cur_plan o)).
Proof. unfold process_targetlist, projected_plan. by destruct (cur_plan o). Qed.

(** The four stages in closed form: the current plan they leave. *)
Lemma optimize_current_query_planned (q : Query Expr) :
  stages_defined q ->
  exists o, optimize_current_query q Optimizer_init = Ok o /\
            cur_plan o = Some (planned_plan q).
Proof.
  intros (Hb & Hl & Ha). unfold optimize_current_query.
  rewrite optimize_scans_planned by done. simpl.
  rewrite optimize_joins_planned by done. simpl.
  rewrite optimize_aggs_planned by done. simpl.
  eexists. split; [reflexivity|]. by rewrite process_targetlist_planned.
Qed.

Lemma optimize_current_query_defined (q : Query Expr) o :
  optimize_current_query q Optimizer_init = Ok o -> stages_defined q.
Proof.
  intros Ho. apply optimize_current_query_Ok in Ho as (o1 & o2 & o3 & H1 & H2 & H3 & _).
  assert (Hb: scan_stage_in_bounds q) by (apply optimize_scans_defined; eauto).
  apply optimize_scans_state in H1. subst o1.
  assert (Hl: (length (scanned_entries q) <= 1)%nat).
  { destruct (le_gt_dec (length (scanned_entries q)) 1) as [?|Hgt]; [done|].
    rewrite optimize_joins_too_many in H2 by lia. discriminate. }
  split; [done|]. split; [done|].
  rewrite optimize_joins_planned in H2 by done. injection H2 as <-.
  destruct (aggregation_defined_dec q) as [?|Hn]; [done|].
  rewrite optimize_aggs_planned_Err in H3 by done. discriminate.
Qed.

Lemma result_table_Ok (q : Query Expr) :
  (exists dest, result_table q = Ok dest) <-> has_destination q.
Proof.
  unfold result_table, has_destination.
  destruct (get_stmt_type q); [| destruct (get_rangetable q) | |]; simpl; split;
    try (intros [? ?]; discriminate); try (intros [?|[? ?]]; done); eauto.
Qed.

Lemma optimize_planned (q : Query Expr) dest :
  result_table q = Ok dest ->
  get_next_query q = None ->
  get_order_by q = None ->
  stages_defined q ->
  optimize q = Ok (mkRootPlan (Some (planned_plan q)) (get_stmt_type q) (fst dest) (snd dest)).
Proof.
  intros Hd Hn Ho Hs. unfold optimize. rewrite Hd. simpl.
  rewrite optimize_query_single by done.
  destruct (optimize_current_query_planned q Hs) as (o & -> & Hplan). simpl.
  by rewrite Ho, Hplan.
Qed.

End PlannedPipeline.

Section Outcomes.
Context {Expr : Type} `{ExprOps Expr}.

Lemma no_group_by_dec (q : Query Expr) : no_group_by q \/ ~ no_group_by q.
Proof.
  unfold no_group_by. destruct (get_group_by q) as [[|e g]|]; auto;
    right; intros [?|?]; done.
Qed.

Lemma optimize_outcome (q : Query Expr) : planning_outcome q (optimize q).
Proof.
  destruct (result_table q) as [dest|e] eqn:Hd.
  2:{ unfold optimize. rewrite Hd. simpl. unfold result_table in Hd.
      destruct (get_stmt_type q) eqn:Hs; try discriminate.
      - destruct (get_rangetable q) eqn:Hr; [|discriminate].
        injection Hd as <-. by apply outcome_insert_without_destination.
      - injection Hd as <-. apply outcome_update_delete. auto.
      - injection Hd as <-. apply outcome_update_delete. auto. }
  assert (Hdest: has_destination q) by (apply result_table_Ok; eauto).
  destruct (get_next_query q) as [next|] eqn:Hn.
  { unfold optimize. rewrite Hd. simpl. rewrite (optimize_query_union q _ next Hn).
    simpl. by eapply outcome_union. }
  destruct (optimize_scans q Optimizer_init) as [o1|e] eqn:Hs.
  2:{ assert (Hnb: ~ scan_stage_in_bounds q).
      { intros Hb. apply optimize_scans_defined in Hb as [o' Ho]. congruence. }
      destruct (optimize_scans_Err q e Hs) as [ub ->].
      unfold optimize. rewrite Hd. simpl. rewrite optimize_query_single by done.
      unfold optimize_current_query. rewrite Hs. simpl.
      by apply outcome_scan_out_of_bounds. }
  assert (Hb: scan_stage_in_bounds q) by (apply optimize_scans_defined; eauto).
  rewrite (optimize_through_joins q dest o1 Hd Hn Hs).
  apply optimize_scans_state in Hs. subst o1.
  destruct (le_gt_dec (length (scanned_entries q)) 1) as [Hl|Hl].
  2:{ rewrite optimize_joins_too_many by lia. simpl. apply outcome_joins; done || lia. }
  rewrite optimize_joins_planned by done. simpl.
  destruct (aggregation_defined_dec q) as [Ha|Ha].
  - rewrite optimize_aggs_planned by done. simpl.
    destruct (get_order_by q) as [ob|] eqn:Ho; simpl.
    + by eapply outcome_order_by.
    + rewrite process_targetlist_planned. simpl. by apply outcome_planned.
  - rewrite optimize_aggs_planned_Err by done. simpl.
    assert (Hna: ~ no_aggregation q) by (intros ?; apply Ha; by left).
    assert (Hass: having_others q <> [] ->
                  scanned_entries q <> [] \/ (get_targetlist q = [] /\ no_group_by q) ->
                  planning_outcome (H:=H) q (Err AssertionFailed))
      by (intros; by apply outcome_having_assertion).
    assert (Hho: scanned_entries q <> [] \/ (get_targetlist q = [] /\ no_group_by q) ->
                 having_others q <> []).
    { intros Hc Hh. apply Ha. right. done. }
    destruct (joined_plan q) as [child|] eqn:Hj.
    + assert (scanned_entries q <> []).
      { intros Hs. apply joined_plan_None in Hs. congruence. }
      apply Hass; auto.
    + apply joined_plan_None in Hj.
      destruct (get_targetlist q) as [|tle tl] eqn:Htl.
      * destruct (get_group_by q) as [[|e g]|] eqn:Hg.
        -- assert (no_group_by q) by (unfold no_group_by; auto). apply Hass; auto.
        -- apply outcome_null_plan; try done.
           unfold no_group_by. rewrite Hg. intros [_ [?|?]]; done.
        -- assert (no_group_by q) by (unfold no_group_by; auto). apply Hass; auto.
      * apply outcome_null_plan; try done. rewrite Htl. intros [? _]; done.
Qed.

Lemma stages_defined_aggregation (q : Query Expr) :
  stages_defined q -> having_others q <> [] -> False.
Proof.
  intros (_ & _ & [[_ Hn]|[Hh _]]) Ho; [|done].
  unfold having_others in Ho. by rewrite Hn in Ho.
Qed.

Lemma stages_defined_null_plan (q : Query Expr) :
  stages_defined q -> scanned_entries q = [] -> ~ no_aggregation q ->
  get_targetlist q = [] /\ no_group_by q.
Proof.
  intros (_ & _ & [?|[_ [?|?]]]) Hs Hn; done.
Qed.

(** X1.  [optimize] returns a plan exactly for the plannable queries:
    the statement is a SELECT, or an INSERT with a first range-table
    entry; there is no UNION link and no ORDER BY; every attachment of
    the scan stage subscripts inside [base_scans]; at most one range-table
    entry is scanned; and the aggregation stage is skipped, or its HAVING
    predicate has scan-classified conjuncts only and the plan it reads is
    present (or is never read because the target list and the group-by
    list are empty).  The plan returned is then [planned_plan q] under a
    root that carries the statement kind. *)
Theorem planning_succeeds_iff (q : Query Expr) :
  ((exists rp, optimize q = Ok rp) <-> plannable q) /\
  (forall rp, optimize q = Ok rp ->
     get_plan rp = Some (planned_plan q) /\ root_stmt_type rp = get_stmt_type q).
Proof.
  pose proof (optimize_outcome q) as Hout. split; [split|].
  - intros [rp Hrp]. rewrite Hrp in Hout. inversion Hout. done.
  - intros (Hd & Hn & Ho & Hs).
    apply result_table_Ok in Hd as [dest Hd].
    rewrite (optimize_planned q dest Hd Hn Ho Hs). eauto.
  - intros rp Hrp. rewrite Hrp in Hout. inversion Hout. done.
Qed.

(** X2.  The catchable failures.  [optimize] throws a runtime error in
    exactly three situations, each with its own message, and only for a
    statement with a destination: a UNION link (checked before any
    stage); two or more scanned range-table entries once the scan stage
    has completed; an ORDER BY once all four stages have completed. *)
Theorem not_supported_iff (q : Query Expr) (what : string) :
  optimize q = Err (NotSupported what) <->
  has_destination q /\
  ((what = union_not_supported /\ get_next_query q <> None) \/
   (what = joins_not_supported /\ get_next_query q = None /\
    scan_stage_in_bounds q /\ (2 <= length (scanned_entries q))%nat) \/
   (what = order_by_not_supported /\ get_next_query q = None /\
    stages_defined q /\ get_order_by q <> None)).
Proof.
  pose proof (optimize_outcome q) as Hout. split.
  - intros He. rewrite He in Hout. inversion Hout; subst; split; try done.
    + left. split; [done|]. congruence.
    + right. left. done.
    + right. right. split; [done|]. split; [done|]. split; [done|]. congruence.
  - intros (Hd & Hc). apply result_table_Ok in Hd as [dest Hd].
    destruct Hc as [[-> Hn]|[(-> & Hn & Hb & Hl)|(-> & Hn & Hs & Ho)]].
    + destruct (get_next_query q) as [next|] eqn:Hnx; [|done].
      unfold optimize. rewrite Hd. simpl. by rewrite (optimize_query_union q _ next Hnx).
    + rewrite (optimize_through_joins q dest _ Hd Hn (optimize_scans_planned q Hb)).
      by rewrite optimize_joins_too_many.
    + destruct (get_order_by q) as [ob|] eqn:Hob; [|done].
      unfold optimize. rewrite Hd. simpl. rewrite optimize_query_single by done.
      destruct (optimize_current_query_planned q Hs) as (o & -> & _). simpl.
      by rewrite Hob.
Qed.

(** X3.  The assertion failures.  [optimize] aborts on an assertion
    exactly when the statement is an UPDATE or a DELETE, or when the
    aggregation stage is reached (destination, no UNION link, scan stage
    in bounds, at most one scanned entry) without dereferencing a null
    plan and the HAVING predicate has a join- or constant-classified
    conjunct. *)
Theorem assertion_failure_iff (q : Query Expr) :
  optimize q = Err AssertionFailed <->
  (get_stmt_type q = kUPDATE \/ get_stmt_type q = kDELETE) \/
  (has_destination q /\ get_next_query q = None /\
   scan_stage_in_bounds q /\ (length (scanned_entries q) <= 1)%nat /\
   having_others q <> [] /\
   (scanned_entries q <> [] \/ (get_targetlist q = [] /\ no_group_by q))).
Proof.
  pose proof (optimize_outcome q) as Hout. split.
  - intros He. rewrite He in Hout. inversion Hout; subst; [by left|].
    right. done.
  - clear Hout. intros [Hs|(Hd & Hn & Hb & Hl & Hh & Hc)].
    + unfold optimize, result_table. by destruct Hs as [-> | ->].
    + apply result_table_Ok in Hd as [dest Hd].
      rewrite (optimize_through_joins q dest _ Hd Hn (optimize_scans_planned q Hb)).
      rewrite optimize_joins_planned by done. simpl.
      rewrite optimize_aggs_planned_Err.
      2:{ intros [[_ Hnone]|[? _]]; [|done].
          unfold having_others in Hh. by rewrite Hnone in Hh. }
      destruct (joined_plan q) as [child|] eqn:Hj; [done|].
      apply joined_plan_None in Hj.
      destruct Hc as [?|[-> Hg]]; [done|].
      by destruct Hg as [-> | ->].
Qed.

End Outcomes.

Section UndefinedBehaviour.
Context {Expr : Type} `{ExprOps Expr}.

Lemma null_plan_not_defined (q : Query Expr) :
  scanned_entries q = [] -> ~ no_aggregation q ->
  ~ (get_targetlist q = [] /\ no_group_by q) ->
  ~ aggregation_defined q.
Proof. intros Hs Hn Hl [?|[_ [?|?]]]; done. Qed.

Lemma optimize_null_plan (q : Query Expr) :
  has_destination q -> get_next_query q = None -> scan_stage_in_bounds q ->
  scanned_entries q = [] -> ~ no_aggregation q ->
  ~ (get_targetlist q = [] /\ no_group_by q) ->
  optimize q = Err (Undefined NullDereference).
Proof.
  intros Hd Hn Hb Hs Hna Hl. apply result_table_Ok in Hd as [dest Hd].
  rewrite (optimize_through_joins q dest _ Hd Hn (optimize_scans_planned q Hb)).
  rewrite optimize_joins_planned by (rewrite Hs; simpl; lia). simpl.
  rewrite optimize_aggs_planned_Err by (by apply null_plan_not_defined).
  rewrite (proj2 (joined_plan_None q) Hs).
  destruct (get_targetlist q) as [|tle tl]; [|done].
  destruct (get_group_by q) as [[|e g]|] eqn:Hg; [|done|];
    exfalso; apply Hl; (split; [done|]); unfold no_group_by; rewrite Hg; auto.
Qed.

(** The scan stage never dereferences a null pointer. *)
Lemma optimize_scans_no_null (q : Query Expr) :
  optimize_scans q Optimizer_init <> Err (Undefined NullDereference).
Proof.
  intros Hs. unfold optimize_scans in Hs. destruct (where_groups q) as [[sp jp] cp].
  assert (Hup: forall (v : list (Scan Expr)) i f,
             vec_update v i f <> Err (Undefined NullDereference)).
  { intros v i f. unfold vec_update. destruct (vec_at v i) as [x|e] eqn:Hx; simpl;
      [discriminate|]. apply vec_at_Err in Hx as [-> _]. discriminate. }
  assert (Hp: forall ps (v : list (Scan Expr)),
             for_each attach_scan_predicate ps v <> Err (Undefined NullDereference)).
  { induction ps as [|p ps IH]; simpl; intros v; [discriminate|].
    destruct (attach_scan_predicate v p) as [v1|e1] eqn:Ha; simpl; [apply IH|].
    intros [= ->]. unfold attach_scan_predicate in Ha.
    destruct (normalize_simple_predicate p) as [[j sp']|]; [by apply Hup in Ha|].
    unfold first_rte_idx in Ha.
    destruct (set_insert_all Z.ltb (collect_rte_idx p) []); simpl in Ha;
      [discriminate | by apply Hup in Ha]. }
  assert (Hc: forall cs (v : list (Scan Expr)),
             for_each attach_colvar cs v <> Err (Undefined NullDereference)).
  { induction cs as [|c cs IH]; simpl; intros v; [discriminate|].
    destruct (attach_colvar v c) as [v1|e1] eqn:Ha; simpl; [apply IH|].
    intros [= ->]. by apply Hup in Ha. }
  destruct (for_each attach_scan_predicate sp _) as [s1|e1] eqn:H1; simpl in Hs.
  - destruct (for_each attach_colvar _ s1) as [s2|e2] eqn:H2; simpl in Hs;
      [discriminate|]. injection Hs as ->. by apply Hc in H2.
  - injection Hs as ->. by apply Hp in H1.
Qed.

(** X4.  Memory safety of planning.  [optimize] runs into undefined
    behaviour exactly when the statement is an INSERT with an empty range
    table ([front()] of an empty vector), or, for a statement with a
    destination and no UNION link, when an attachment of the scan stage
    leaves [base_scans], or when the aggregation stage is triggered with
    no scanned entry while the target list or the group-by list is not
    empty.  The last case, and no other, is a null dereference. *)
Theorem undefined_behaviour_iff (q : Query Expr) :
  ((exists ub, optimize q = Err (Undefined ub)) <->
   (get_stmt_type q = kINSERT /\ get_rangetable q = []) \/
   (has_destination q /\ get_next_query q = None /\
    (~ scan_stage_in_bounds q \/
     (scanned_entries q = [] /\ ~ no_aggregation q /\
      ~ (get_targetlist q = [] /\ no_group_by q))))) /\
  (optimize q = Err (Undefined NullDereference) <->
   has_destination q /\ get_next_query q = None /\ scan_stage_in_bounds q /\
   scanned_entries q = [] /\ ~ no_aggregation q /\
   ~ (get_targetlist q = [] /\ no_group_by q)).
Proof.
  pose proof (optimize_outcome q) as Hout. split; split.
  - intros [ub He]. rewrite He in Hout. inversion Hout; subst.
    + by left.
    + right. split; [done|]. split; [done|]. by left.
    + right. split; [done|]. split; [done|]. by right.
  - clear Hout. intros [[Hs Hr]|(Hd & Hn & Hc)].
    + exists OutOfBounds. unfold optimize, result_table. by rewrite Hs, Hr.
    + destruct (optimize_scans q Optimizer_init) as [o1|e] eqn:Hs.
      * assert (Hb: scan_stage_in_bounds q) by (apply optimize_scans_defined; eauto).
        destruct Hc as [?|(? & ? & ?)]; [done|].
        exists NullDereference. by apply optimize_null_plan.
      * destruct (optimize_scans_Err q e Hs) as [ub ->]. exists ub.
        apply result_table_Ok in Hd as [dest Hd].
        unfold optimize. rewrite Hd. simpl. rewrite optimize_query_single by done.
        unfold optimize_current_query. by rewrite Hs.
  - intros He. rewrite He in Hout.
    inversion Hout as [ | | |ub Hd Hn Hnb Hub| |Hd Hn Hb Hs Hna Hl| | | ]; [|done].
    exfalso. apply result_table_Ok in Hd as [dest Hd].
    unfold optimize in He. rewrite Hd in He. simpl in He.
    rewrite optimize_query_single in He by done.
    unfold optimize_current_query in He.
    destruct (optimize_scans q Optimizer_init) as [o1|e] eqn:Hs.
    + apply Hnb. apply optimize_scans_defined. eauto.
    + simpl in He. injection He as ->. by apply optimize_scans_no_null in Hs.
  - intros (Hd & Hn & Hb & Hs & Hna & Hl). by apply optimize_null_plan.
Qed.

End UndefinedBehaviour.

(** ** The plans of the three plannable query shapes *)

Section PlanShapes.
Context {Expr : Type} `{ExprOps Expr}.

Lemma optimize_Ok_planned (q : Query Expr) rp :
  optimize q = Ok rp ->
  plannable q /\
  exists dest, result_table q = Ok dest /\
    rp = mkRootPlan (Some (planned_plan q)) (get_stmt_type q) (fst dest) (snd dest).
Proof.
  intros Hrp. pose proof (optimize_outcome q) as Hout. rewrite Hrp in Hout.
  inversion Hout as [ | | | | | | | |dest Hd Hp Heq]. split; [done|]. by exists dest.
Qed.

Lemma no_aggregation_plan (q : Query Expr) :
  no_aggregation q -> aggregated_plan q = joined_plan q.
Proof.
  intros Hn. unfold aggregated_plan. by rewrite (proj2 (no_aggregation_test q) Hn).
Qed.

Lemma aggregation_plan (q : Query Expr) :
  ~ no_aggregation q -> aggregated_plan q = Some (agg_over q (joined_plan q)).
Proof.
  intros Hn. unfold aggregated_plan.
  destruct (bool_decide _ && is_nullptr _) eqn:Ht; [|done].
  by apply no_aggregation_test in Ht.
Qed.

(** X5.  One scanned table, no aggregation.  For a statement with a
    destination, no UNION link and no ORDER BY, whose scan stage stays in
    bounds over exactly one scanned range-table entry [rte] and which
    declares no aggregate and no HAVING, [optimize] returns a root over a
    single Scan of [rte]: its simple_quals and quals are the pushed-down
    WHERE conjuncts, it has no child, and its target list is the query's
    target list, names kept, each expression rewritten against the
    scan's column entries (which the projection then replaces). *)
Theorem single_table_plan (q : Query Expr) dest rte :
  result_table q = Ok dest ->
  get_next_query q = None ->
  get_order_by q = None ->
  scan_stage_in_bounds q ->
  scanned_entries q = [rte] ->
  no_aggregation q ->
  optimize q
  = Ok (mkRootPlan
          (Some (mkPlan
                   ((fun tle =>
                       mkTargetEntry (get_resname tle)
                         (rewrite_with_targetlist (get_expr tle)
                            (tles_for 0 (collect_colvar_set q (snd (fst (where_groups q)))))))
                      <$> get_targetlist q)
                   (quals_for 0 (scan_predicates q))
                   0 None
                   (ScanNode (Plan Expr)
                      (simple_quals_for 0 (scan_predicates q))
                      (get_table_id rte)
                      (columnId <$> get_column_descs rte))))
          (get_stmt_type q) (fst dest) (snd dest)).
Proof.
  intros Hd Hn Ho Hb Hs Hna.
  rewrite (optimize_planned q dest Hd Hn Ho).
  - unfold planned_plan. rewrite no_aggregation_plan by done.
    unfold joined_plan. rewrite Hs. done.
  - split; [done|]. split; [rewrite Hs; simpl; lia | by left].
Qed.

(** X6.  One scanned table under an aggregation.  With the same
    premises, but an aggregate or a HAVING predicate whose conjuncts are
    all scan-classified, [optimize] returns a root over an AggPlan whose
    child is the Scan of [rte].  The Scan keeps the deduplicated column
    entries as its target list; the AggPlan holds the rewritten HAVING
    conjuncts and group-by list, and its target list is the query's
    target list rewritten a second time, against the aggregated target
    list. *)
Theorem aggregated_table_plan (q : Query Expr) dest rte :
  result_table q = Ok dest ->
  get_next_query q = None ->
  get_order_by q = None ->
  scan_stage_in_bounds q ->
  scanned_entries q = [rte] ->
  ~ no_aggregation q ->
  having_others q = [] ->
  optimize q
  = Ok (mkRootPlan
          (Some (mkPlan
                   ((fun tle =>
                       mkTargetEntry (get_resname tle)
                         (rewrite_with_targetlist (get_expr tle)
                            (agg_targetlist q
                               (tles_for 0 (collect_colvar_set q (snd (fst (where_groups q))))))))
                      <$> get_targetlist q)
                   (agg_having q
                      (agg_targetlist q
                         (tles_for 0 (collect_colvar_set q (snd (fst (where_groups q)))))))
                   0
                   (Some (Plan_of_Scan (planned_scan q 0 rte)))
                   (AggPlanNode (Plan Expr)
                      (agg_groupby q
                         (tles_for 0 (collect_colvar_set q (snd (fst (where_groups q)))))))))
          (get_stmt_type q) (fst dest) (snd dest)).
Proof.
  intros Hd Hn Ho Hb Hs Hna Hh.
  rewrite (optimize_planned q dest Hd Hn Ho).
  - unfold planned_plan. rewrite aggregation_plan by done.
    unfold joined_plan. rewrite Hs. done.
  - split; [done|]. split; [rewrite Hs; simpl; lia|].
    right. split; [done|]. left. by rewrite Hs.
Qed.

(** X7.  No scanned table.  For a statement with a destination, no UNION
    link and no ORDER BY, with no scanned range-table entry (a SELECT
    without FROM, or an INSERT whose range table holds the destination
    only), no aggregate and no HAVING, whose scan stage stays in bounds,
    [optimize] returns a root over a childless ValuesScan of the query's
    target entries, names kept and expressions deep-copied. *)
Theorem constant_plan (q : Query Expr) dest :
  result_table q = Ok dest ->
  get_next_query q = None ->
  get_order_by q = None ->
  scan_stage_in_bounds q ->
  scanned_entries q = [] ->
  no_aggregation q ->
  optimize q
  = Ok (mkRootPlan
          (Some (mkPlan
                   ((fun tle => mkTargetEntry (get_resname tle) (deep_copy (get_expr tle)))
                      <$> get_targetlist q)
                   [] 0 None (ValuesScanNode (Plan Expr))))
          (get_stmt_type q) (fst dest) (snd dest)).
Proof.
  intros Hd Hn Ho Hb Hs Hna.
  rewrite (optimize_planned q dest Hd Hn Ho).
  - unfold planned_plan. rewrite no_aggregation_plan by done.
    unfold joined_plan. rewrite Hs. done.
  - split; [done|]. split; [rewrite Hs; simpl; lia | by left].
Qed.

Lemma projected_plan_names (q : Query Expr) cur :
  get_resname <$> targetlist (projected_plan q cur) = get_resname <$> get_targetlist q.
Proof.
  unfold projected_plan, rewritten_targetlist, copied_targetlist.
  destruct cur as [p|]; simpl; rewrite <- list_fmap_compose; done.
Qed.

(** X8.  The output schema.  Every plan [optimize] returns is a non-null
    plan whose target list has one entry per target entry of the query,
    in order and under the same names; the root carries the statement
    kind of the query, and for a SELECT the destination table id 0 and an
    empty destination column list. *)
Theorem output_schema (q : Query Expr) rp :
  optimize q = Ok rp ->
  (exists p, get_plan rp = Some p /\
             get_resname <$> targetlist p = get_resname <$> get_targetlist q /\
             length (targetlist p) = length (get_targetlist q)) /\
  root_stmt_type rp = get_stmt_type q /\
  (get_stmt_type q = kSELECT ->
   get_result_table_id rp = 0 /\ get_result_col_list rp = []).
Proof.
  intros Hrp. apply optimize_Ok_planned in Hrp as (_ & dest & Hd & ->). simpl.
  split; [|split; [done|]].
  - exists (planned_plan q). split; [done|].
    pose proof (projected_plan_names q (aggregated_plan q)) as Hn.
    split; [exact Hn|].
    apply (f_equal length) in Hn. by rewrite !length_fmap in Hn.
  - intros Hs. unfold result_table in Hd. rewrite Hs in Hd. by injection Hd as <-.
Qed.

(** X9.  The node kinds the planner builds.  The plan [optimize] returns
    is a childless Scan, a childless ValuesScan, or an AggPlan whose
    child is null or a childless Scan; it is never a Result, Join,
    Append, MergeAppend or Sort node, and never deeper than two nodes. *)
Theorem plan_node_kinds (q : Query Expr) rp :
  optimize q = Ok rp ->
  exists p, get_plan rp = Some p /\
    match node p with
    | ScanNode _ _ _ _ | ValuesScanNode _ => child_plan p = None
    | AggPlanNode _ _ =>
        match child_plan p with
        | None => True
        | Some c =>
            child_plan c = None /\
            exists sq t cl, node c = ScanNode (Plan Expr) sq t cl
        end
    | _ => False
    end /\
    (plan_depth p <= 1)%nat.
Proof.
  intros Hrp. apply optimize_Ok_planned in Hrp as (_ & dest & _ & ->). simpl.
  exists (planned_plan q). split; [done|].
  unfold planned_plan, aggregated_plan, joined_plan.
  destruct (bool_decide _ && is_nullptr _);
    destruct (scanned_entries q) as [|rte rest]; simpl; repeat split; eauto.
Qed.

End PlanShapes.

Lemma single_table_plan_witness :
  exists p, optimize Sql.where_query = Ok (mkRootPlan (Some p) kSELECT 0 []) /\
            quals p = [Sql.a_plus_b_eq_3] /\
            node p = ScanNode (Plan Sql.Expr) [Sql.a_gt_5] 7 [1; 2].
Proof.
  eexists. split.
  - apply (single_table_plan Sql.where_query (0, []) Sql.t);
      try reflexivity; [|split; reflexivity].
    apply optimize_scans_defined. eexists. vm_compute. reflexivity.
  - split; vm_compute; reflexivity.
Defined.

Lemma aggregated_table_plan_witness :
  exists p, optimize Sql.group_query = Ok (mkRootPlan (Some p) kSELECT 0 []) /\
            child_plan p = Some (Plan_of_Scan (planned_scan Sql.group_query 0 Sql.t)) /\
            node p = AggPlanNode (Plan Sql.Expr) [Sql.Var 2].
Proof.
  eexists. split.
  - apply (aggregated_table_plan Sql.group_query (0, []) Sql.t); try reflexivity.
    + apply optimize_scans_defined. eexists. vm_compute. reflexivity.
    + intros [Hn _]. vm_compute in Hn. discriminate.
  - split; vm_compute; reflexivity.
Defined.

Lemma constant_plan_witness :
  optimize Sql.insert_values
  = Ok (mkRootPlan
          (Some (ValuesScan [mkTargetEntry "" (Sql.Constant 1);
                             mkTargetEntry "" (Sql.Constant 2)]))
          kINSERT 7 [1; 2]).
Proof.
  assert (Hb: scan_stage_in_bounds Sql.insert_values).
  { apply optimize_scans_defined. eexists. vm_compute. reflexivity. }
  exact (constant_plan Sql.insert_values (7, [1; 2]) eq_refl eq_refl eq_refl Hb eq_refl
                       (conj eq_refl eq_refl)).
Defined.

Lemma output_schema_witness :
  exists rp p, optimize Sql.group_query = Ok rp /\ get_plan rp = Some p /\
               get_resname <$> targetlist p = ["b"; "n"].
Proof.
  assert (Hrp: exists rp, optimize Sql.group_query = Ok rp)
    by (eexists; vm_compute; reflexivity).
  destruct Hrp as [rp Hrp]. exists rp.
  destruct (output_schema Sql.group_query rp Hrp) as ((p & Hp & Hn & _) & _).
  exists p. split; [exact Hrp|]. split; [exact Hp | exact Hn].
Defined.

Lemma plan_node_kinds_witness :
  exists rp p, optimize Sql.group_query = Ok rp /\ get_plan rp = Some p /\
               (plan_depth p <= 1)%nat.
Proof.
  assert (Hrp: exists rp, optimize Sql.group_query = Ok rp)
    by (eexists; vm_compute; reflexivity).
  destruct Hrp as [rp Hrp]. exists rp.
  destruct (plan_node_kinds Sql.group_query rp Hrp) as (p & Hp & _ & Hdepth).
  exists p. split; [exact Hrp|]. split; [exact Hp | exact Hdepth].
Defined.

(** ** More on the scan stage *)

Section ScanStageMore.
Context {Expr : Type} `{ExprOps Expr}.

Lemma rte_idx_set_elem_of (xs : list Z) (z : Z) :
  z ∈ set_insert_all Z.ltb xs [] <-> z ∈ xs.
Proof.
  split.
  - intros Hz. apply set_insert_all_elem_of in Hz as [?|Hn]; [done|].
    by apply elem_of_nil in Hn.
  - intros Hz.
    destruct (set_insert_all_equiv Z.ltb xs [] z Z.ltb_irrefl Hz) as (y & Hy & H1 & H2).
    apply Z.ltb_ge in H1, H2. by replace z with y by lia.
Qed.

Lemma rte_idx_set_sorted (xs : list Z) :
  StronglySorted (fun a b => Z.ltb a b = true) (set_insert_all Z.ltb xs []).
Proof.
  apply set_insert_all_sorted; [|constructor].
  intros a b c Hab Hbc. apply Z.ltb_lt in Hab, Hbc. apply Z.ltb_lt. lia.
Qed.

(** X10.  Which index a non-normalizable scan predicate is attached
    under.  [first_rte_idx] yields an index exactly when the predicate
    references some range-table index, and the index it yields is the
    least one referenced (the first element of the [std::set<int>]); when
    the predicate references none, [rte_idx] is used unset. *)
Theorem least_rte_idx (p : Expr) :
  (forall i, first_rte_idx p = Ok i <->
             i ∈ collect_rte_idx p /\ forall j, j ∈ collect_rte_idx p -> i <= j) /\
  (forall e, first_rte_idx p = Err e <->
             e = Undefined UninitializedRead /\ collect_rte_idx p = []).
Proof.
  unfold first_rte_idx.
  pose proof (rte_idx_set_sorted (collect_rte_idx p)) as Hsorted.
  pose proof (rte_idx_set_elem_of (collect_rte_idx p)) as Hmem.
  destruct (set_insert_all Z.ltb (collect_rte_idx p) []) as [|h t] eqn:Hs.
  - assert (Hnil: collect_rte_idx p = []).
    { destruct (collect_rte_idx p) as [|x xs]; [done|].
      assert (Hx: x ∈ ([] : list Z)) by (apply Hmem; by left).
      by apply elem_of_nil in Hx. }
    split.
    + intros i. split; [discriminate|]. intros [Hi _]. rewrite Hnil in Hi.
      by apply elem_of_nil in Hi.
    + intros e. split; [by intros [= <-] | by intros [-> _]].
  - apply StronglySorted_inv in Hsorted as [_ Hh]. rewrite Forall_forall in Hh.
    assert (Hleast: forall j, j ∈ collect_rte_idx p -> h <= j).
    { intros j Hj. apply Hmem in Hj. apply elem_of_cons in Hj as [->|Hj]; [lia|].
      specialize (Hh j Hj). apply Z.ltb_lt in Hh. lia. }
    assert (Hin: h ∈ collect_rte_idx p) by (apply Hmem; by left).
    split.
    + intros i. split.
      * intros [= <-]. done.
      * intros [Hi Hmin]. f_equal. specialize (Hmin h Hin). specialize (Hleast i Hi). lia.
    + intros e. split; [discriminate|]. intros [_ Hnil]. rewrite Hnil in Hin.
      by apply elem_of_nil in Hin.
Qed.

(** X11.  A query without a WHERE predicate pushes nothing down: when
    its scan stage stays in bounds, the stage completes with no join and
    no constant predicate recorded, and every base scan has empty
    simple_quals and empty quals. *)
Theorem no_where_no_quals (q : Query Expr) :
  get_where_predicate q = None ->
  scan_stage_in_bounds q ->
  exists o', optimize_scans q Optimizer_init = Ok o' /\
    join_predicates o' = [] /\ const_predicates o' = [] /\
    length (base_scans o') = length (scanned_entries q) /\
    Forall (fun s => simple_quals s = [] /\ scan_quals s = []) (base_scans o').
Proof.
  intros Hw Hb. eexists. split; [by apply optimize_scans_planned|]. simpl.
  assert (Hg: where_groups q = ([], [], [])) by (unfold where_groups; by rewrite Hw).
  rewrite Hg. simpl. repeat split; [apply planned_base_scans_length|].
  apply Forall_lookup. intros i s Hs. unfold planned_base_scans in Hs.
  rewrite list_lookup_imap in Hs.
  destruct (scanned_entries q !! i) as [rte|]; [|discriminate].
  injection Hs as <-. simpl. unfold scan_predicates. rewrite Hg. done.
Qed.

(** X12.  The scan stage keeps the scans it built.  When it stays in
    bounds it completes with one base scan per scanned range-table entry,
    in range-table order (all entries, unless the statement is an INSERT),
    each with the table id of its entry, every column id of the entry in
    descriptor order, and cost 0; the current plan is still null, and the
    join and constant conjuncts of the WHERE predicate are recorded in
    the optimizer. *)
Theorem scan_stage_keeps_tables (q : Query Expr) :
  scan_stage_in_bounds q ->
  (get_stmt_type q <> kINSERT -> scanned_entries q = get_rangetable q) /\
  exists o', optimize_scans q Optimizer_init = Ok o' /\
    table_id <$> base_scans o' = get_table_id <$> scanned_entries q /\
    col_list <$> base_scans o'
    = (fun rte => columnId <$> get_column_descs rte) <$> scanned_entries q /\
    Forall (fun s => scan_cost s = 0) (base_scans o') /\
    cur_plan o' = None /\
    join_predicates o' = snd (fst (where_groups q)) /\
    const_predicates o' = snd (where_groups q).
Proof.
  intros Hb. split; [apply select_scan_index|].
  eexists. split; [by apply optimize_scans_planned|]. simpl.
  unfold planned_base_scans. repeat split.
  - apply list_eq. intros i. rewrite !list_lookup_fmap, list_lookup_imap.
    by destruct (scanned_entries q !! i).
  - apply list_eq. intros i. rewrite !list_lookup_fmap, list_lookup_imap.
    by destruct (scanned_entries q !! i).
  - apply Forall_lookup. intros i s Hs. rewrite list_lookup_imap in Hs.
    destruct (scanned_entries q !! i); [|discriminate]. by injection Hs as <-.
Qed.

Lemma colvar_sorted_filter (i : Z) (s : list ColumnVar) :
  StronglySorted colvar_lt s ->
  StronglySorted (fun a b => get_column_id a < get_column_id b)
                 (filter (fun cv => get_rte_idx cv = i) s).
Proof.
  induction 1 as [|y s Hs IH Hy]; [constructor|].
  rewrite filter_cons. destruct (decide (get_rte_idx y = i)) as [Hi|Hi]; [|done].
  constructor; [done|].
  apply Forall_forall. intros z Hz. apply list_elem_of_filter in Hz as [Hzi Hz].
  rewrite Forall_forall in Hy. specialize (Hy z Hz).
  apply colvar_comp_true in Hy. lia.
Qed.

(** X13.  The output columns of a scan.  When the scan stage stays in
    bounds, the target list of the base scan at index [i] wraps column
    references of table index [i] only, in strictly increasing column-id
    order -- the order of the [colvar_comp] set, whatever the order in
    which the query references the columns. *)
Theorem scan_targetlist_sorted (q : Query Expr) :
  scan_stage_in_bounds q ->
  exists o', optimize_scans q Optimizer_init = Ok o' /\
    forall i s, base_scans o' !! i = Some s ->
      exists cvs,
        scan_targetlist s
        = (fun c => mkTargetEntry "" (deep_copy (colvar_expr c))) <$> cvs /\
        Forall (fun c => get_rte_idx c = Z.of_nat i) cvs /\
        StronglySorted (fun a b => get_column_id a < get_column_id b) cvs.
Proof.
  intros Hb. eexists. split; [by apply optimize_scans_planned|]. simpl.
  intros i s Hs. unfold planned_base_scans in Hs. rewrite list_lookup_imap in Hs.
  destruct (scanned_entries q !! i) as [rte|]; [|discriminate]. injection Hs as <-.
  exists (filter (fun cv => get_rte_idx cv = Z.of_nat i)
                 (collect_colvar_set q (snd (fst (where_groups q))))).
  split; [done|]. split.
  - apply Forall_forall. intros c Hc. by apply list_elem_of_filter in Hc as [? _].
  - apply colvar_sorted_filter, collect_colvar_set_sorted.
Qed.

End ScanStageMore.

Lemma no_where_no_quals_witness :
  exists o', optimize_scans Sql.count_by_b Optimizer_init = Ok o' /\
             length (base_scans o') = 1%nat /\
             Forall (fun s => simple_quals s = [] /\ scan_quals s = []) (base_scans o').
Proof.
  assert (Hb: scan_stage_in_bounds Sql.count_by_b).
  { apply optimize_scans_defined. eexists. vm_compute. reflexivity. }
  destruct (no_where_no_quals Sql.count_by_b eq_refl Hb) as (o' & Ho & _ & _ & Hl & Hall).
  exists o'. split; [exact Ho|]. split; [exact Hl | exact Hall].
Defined.

Lemma scan_stage_keeps_tables_witness :
  exists o', optimize_scans Sql.where_query Optimizer_init = Ok o' /\
             table_id <$> base_scans o' = [7] /\
             col_list <$> base_scans o' = [[1; 2]].
Proof.
  assert (Hb: scan_stage_in_bounds Sql.where_query).
  { apply optimize_scans_defined. eexists. vm_compute. reflexivity. }
  destruct (scan_stage_keeps_tables Sql.where_query Hb) as (_ & o' & Ho & Ht & Hc & _).
  exists o'. split; [exact Ho|]. split; [exact Ht | exact Hc].
Defined.

Lemma scan_targetlist_sorted_witness :
  exists o' s cvs,
    optimize_scans Sql.group_query Optimizer_init = Ok o' /\
    base_scans o' !! 0%nat = Some s /\
    scan_targetlist s = (fun c => mkTargetEntry "" (Sql.ColVar c)) <$> cvs /\
    StronglySorted (fun a b => get_column_id a < get_column_id b) cvs.
Proof.
  assert (Hb: scan_stage_in_bounds Sql.group_query).
  { apply optimize_scans_defined. eexists. vm_compute. reflexivity. }
  destruct (scan_targetlist_sorted Sql.group_query Hb) as (o' & Ho & Hall).
  assert (Hs: exists s, base_scans o' !! 0%nat = Some s).
  { apply optimize_scans_state in Ho. subst o'. simpl. eexists. reflexivity. }
  destruct Hs as [s Hs].
  destruct (Hall 0%nat s Hs) as (cvs & Htl & _ & Hsorted).
  exists o', s, cvs. split; [exact Ho|]. split; [exact Hs|]. split; [exact Htl | exact Hsorted].
Defined.

(** ** Constant conjuncts of the WHERE predicate *)

Section ConstantPredicates.
Context {Expr : Type} `{ExprOps Expr}.

Lemma optimize_scans_const (q : Query Expr) w w' :
  fst (where_groups (set_where_predicate q w))
  = fst (where_groups (set_where_predicate q w')) ->
  optimize_scans (set_where_predicate q w') Optimizer_init
  = (o <-- optimize_scans (set_where_predicate q w) Optimizer_init ;;
     Ok (set_const_predicates o (snd (where_groups (set_where_predicate q w'))))).
Proof.
  intros Hg. unfold optimize_scans, collect_colvar_set.
  destruct (where_groups (set_where_predicate q w)) as [[sp jp] cp].
  destruct (where_groups (set_where_predicate q w')) as [[sp' jp'] cp'].
  simpl in Hg. injection Hg as <- <-. simpl.
  destruct (for_each attach_scan_predicate sp _) as [s1|e1]; simpl; [|done].
  destruct (for_each attach_colvar _ s1) as [s2|e2]; simpl; done.
Qed.

Lemma optimize_joins_const (o : Optimizer Expr) cp :
  optimize_joins (set_const_predicates o cp)
  = (o' <-- optimize_joins o ;; Ok (set_const_predicates o' cp)).
Proof.
  unfold optimize_joins. simpl.
  destruct (decide (length (base_scans o) = 0%nat)); [done|].
  destruct (decide (length (base_scans o) = 1%nat)); [|done].
  destruct (vec_at (base_scans o) 0); done.
Qed.

Lemma optimize_aggs_const (q : Query Expr) w w' (o : Optimizer Expr) cp :
  optimize_aggs (set_where_predicate q w') (set_const_predicates o cp)
  = (o' <-- optimize_aggs (set_where_predicate q w) o ;;
     Ok (set_const_predicates o' cp)).
Proof.
  unfold optimize_aggs, having_quals_of, cur_plan_targetlist. simpl.
  destruct (bool_decide (get_num_aggs q = 0) && is_nullptr (get_having_predicate q));
    [done|].
  destruct (push_each _ (get_targetlist q)) as [tl|e]; simpl; [|done].
  destruct (match get_group_by q with Some _ => _ | None => _ end) as [gl|e];
    simpl; [|done].
  destruct (get_having_predicate q) as [h|]; [|done].
  destruct (group_predicates h) as [[ps jp] cs]. destruct (jp ++ cs); done.
Qed.

Lemma process_targetlist_const (q : Query Expr) w w' (o : Optimizer Expr) cp :
  process_targetlist (set_where_predicate q w') (set_const_predicates o cp)
  = set_const_predicates (process_targetlist (set_where_predicate q w) o) cp.
Proof. unfold process_targetlist. simpl. by destruct (cur_plan o). Qed.

(** X14.  Constant conjuncts are dropped.  The constant-classified
    conjuncts of the WHERE predicate are recorded in the optimizer and
    never read again: two queries that differ only in their WHERE
    predicates, and whose WHERE predicates decompose into the same scan
    and join conjuncts, get the same outcome from [optimize] -- the same
    plan or the same failure -- whatever their constant conjuncts are. *)
Theorem constant_conjuncts_dropped (q : Query Expr) (w w' : option Expr) :
  fst (where_groups (set_where_predicate q w))
  = fst (where_groups (set_where_predicate q w')) ->
  optimize (set_where_predicate q w') = optimize (set_where_predicate q w).
Proof.
  intros Hg. unfold optimize.
  change (result_table (set_where_predicate q w'))
    with (result_table (set_where_predicate q w)).
  destruct (result_table (set_where_predicate q w)) as [dest|e]; simpl; [|done].
  unfold optimize_query, optimize_orderby. simpl.
  destruct (is_nullptr (get_next_query q)); [|done].
  unfold optimize_current_query.
  rewrite (optimize_scans_const q w w' Hg).
  destruct (optimize_scans (set_where_predicate q w) Optimizer_init) as [o1|e];
    simpl; [|done].
  rewrite optimize_joins_const.
  destruct (optimize_joins o1) as [o2|e]; simpl; [|done].
  rewrite (optimize_aggs_const q w w').
  destruct (optimize_aggs (set_where_predicate q w) o2) as [o3|e]; simpl; [|done].
  rewrite (process_targetlist_const q w w'). simpl.
  destruct (is_nullptr (get_order_by q)); simpl; done.
Qed.

End ConstantPredicates.

Lemma constant_conjuncts_dropped_witness :
  optimize Sql.simple_query_and_constant = optimize Sql.simple_query /\
  snd (where_groups Sql.simple_query_and_constant) = [Sql.one_eq_one].
Proof.
  split; [|reflexivity].
  exact (constant_conjuncts_dropped Sql.simple_query
           (Some Sql.a_gt_5) (Some (Sql.BinOper Sql.kAND Sql.a_gt_5 Sql.one_eq_one))
           eq_refl).
Defined.

(** ** The debug dump *)

(** Induction on plan trees: through [child_plan] and through the
    sub-plans of Join, Append and MergeAppend nodes. *)
Lemma Plan_tree_ind {Expr} (P : Plan Expr -> Prop) :
  (forall tl qs c child nd,
     (forall c', child = Some c' -> P c') ->
     Forall P (sub_plans nd) ->
     P (mkPlan tl qs c child nd)) ->
  forall p, P p.
Proof.
  intros Hstep. fix IH 1. intros [tl qs c child nd]. apply Hstep.
  - destruct child as [c'|]; [|discriminate]. intros ? [= <-]. apply IH.
  - destruct nd as [ | | |c2| |pl|pl| ]; simpl; try constructor.
    + apply IH.
    + constructor.
    + induction pl as [|p' pl IHl]; constructor; [apply IH | exact IHl].
    + induction pl as [|p' pl IHl]; constructor; [apply IH | exact IHl].
Qed.

Section Dump.
Context {Expr : Type} `{ExprPrint Expr}.

Lemma print_unfold (tl : list (TargetEntry Expr)) qs c child nd :
  print (mkPlan tl qs c child nd)
  = let base := Plan_print tl qs in
    let child_print := match child with
                       | Some c' => print c'
                       | None => Err (Undefined NullDereference)
                       end in
    match nd with
    | ResultNode _ const_quals =>
        c <-- child_print ;; Ok (Result_print base c const_quals)
    | ScanNode _ simple_quals table_id col_list =>
        Ok (Scan_print base simple_quals table_id col_list)
    | ValuesScanNode _ => Ok (ValuesScan_print base)
    | JoinNode _ child_plan2 =>
        outer <-- child_print ;; inner <-- print child_plan2 ;;
        Ok (Join_print base outer inner)
    | AggPlanNode _ groupby_list =>
        c <-- child_print ;; Ok (AggPlan_print base c groupby_list)
    | AppendNode _ plan_list =>
        plans <-- print_list plan_list ;; Ok (Append_print plans)
    | MergeAppendNode _ mergeplan_list =>
        plans <-- print_list mergeplan_list ;; Ok (MergeAppend_print plans)
    | SortNode _ order_entries =>
        c <-- child_print ;; Ok (Sort_print base c order_entries)
    end.
Proof. destruct nd; reflexivity. Qed.

Lemma children_present_unfold (tl : list (TargetEntry Expr)) qs c child nd :
  children_present (mkPlan tl qs c child nd)
  = (if prints_child nd
     then match child with
          | Some c' => children_present c'
          | None => false
          end
     else true)
    && all_children_present (sub_plans nd).
Proof.
  destruct nd; simpl; try reflexivity.
  by rewrite andb_true_r.
Qed.

Lemma print_list_defined (ps : list (Plan Expr)) :
  Forall (fun p => ((exists out, print p = Ok out) <-> children_present p = true) /\
                   (forall e, print p = Err e -> e = Undefined NullDereference)) ps ->
  ((exists out, print_list ps = Ok out) <-> all_children_present ps = true) /\
  (forall e, print_list ps = Err e -> e = Undefined NullDereference).
Proof.
  induction 1 as [|p ps [Hp He] _ [IHd IHe]]; simpl.
  - split; [split; eauto | discriminate].
  - rewrite andb_true_iff, <- Hp, <- IHd.
    destruct (print p) as [out|e] eqn:Hprint; simpl.
    + destruct (print_list ps) as [rest|e] eqn:Hrest; simpl.
      * split; [split; eauto | discriminate].
      * split; [split; [intros [? ?]; discriminate | intros [_ [? ?]]; discriminate]|].
        intros e' [= <-]. by apply IHe.
    + split; [split; [intros [? ?]; discriminate | intros [[? ?] _]; discriminate]|].
      intros e' [= <-]. by apply He.
Qed.

(** X15.  When the dump is defined.  [print] of a plan tree returns its
    text exactly when no Result, Join, Agg or Sort node it reaches has a
    null [child_plan] (Scan and ValuesScan never read their child;
    Append and MergeAppend read only their plan lists); otherwise it
    dereferences a null pointer, and it fails in no other way. *)
Theorem print_defined_iff (p : Plan Expr) :
  ((exists out, print p = Ok out) <-> children_present p = true) /\
  (forall e, print p = Err e -> e = Undefined NullDereference).
Proof.
  induction p as [tl qs c child nd IHc IHs] using Plan_tree_ind.
  rewrite print_unfold, children_present_unfold.
  pose proof (print_list_defined (sub_plans nd) IHs) as [Hld Hle].
  assert (Hchild: forall c',
             child = Some c' ->
             ((exists out, print c' = Ok out) <-> children_present c' = true) /\
             (forall e, print c' = Err e -> e = Undefined NullDereference)) by exact IHc.
  clear IHc IHs.
  destruct nd as [cq|sq t cl| |c2|gl|pl|pl|oe]; simpl in *.
  - (* Result *)
    rewrite andb_true_r. destruct child as [c'|]; simpl.
    + destruct (Hchild c' eq_refl) as [Hd He]. rewrite <- Hd.
      destruct (print c') as [out|e]; simpl.
      * split; [split; eauto | discriminate].
      * split; [split; intros [? ?]; discriminate|]. intros e' [= <-]. by apply He.
    + split; [split; [intros [? ?]; discriminate | discriminate]|]. by intros e [= <-].
  - split; [split; eauto | discriminate].
  - split; [split; eauto | discriminate].
  - (* Join *)
    rewrite andb_true_r in Hld. rewrite andb_true_r, andb_true_iff, <- Hld.
    destruct child as [c'|]; simpl.
    + destruct (Hchild c' eq_refl) as [Hd He]. rewrite <- Hd.
      destruct (print c') as [out|e]; simpl.
      * destruct (print c2) as [inner|e] eqn:H2; simpl in *.
        -- split; [split; eauto | discriminate].
        -- split; [split; [intros [? ?]; discriminate | intros [_ [? ?]]; discriminate]|].
           intros e' [= <-]. by apply Hle.
      * split; [split; [intros [? ?]; discriminate | intros [[? ?] _]; discriminate]|].
        intros e' [= <-]. by apply He.
    + split; [split; [intros [? ?]; discriminate | intros [? _]; discriminate]|].
      by intros e [= <-].
  - (* Agg *)
    rewrite andb_true_r. destruct child as [c'|]; simpl.
    + destruct (Hchild c' eq_refl) as [Hd He]. rewrite <- Hd.
      destruct (print c') as [out|e]; simpl.
      * split; [split; eauto | discriminate].
      * split; [split; intros [? ?]; discriminate|]. intros e' [= <-]. by apply He.
    + split; [split; [intros [? ?]; discriminate | discriminate]|]. by intros e [= <-].
  - (* Append *)
    rewrite <- Hld. destruct (print_list pl) as [plans|e]; simpl.
    + split; [split; eauto | discriminate].
    + split; [split; intros [? ?]; discriminate|]. intros e' [= <-]. by apply Hle.
  - (* MergeAppend *)
    rewrite <- Hld. destruct (print_list pl) as [plans|e]; simpl.
    + split; [split; eauto | discriminate].
    + split; [split; intros [? ?]; discriminate|]. intros e' [= <-]. by apply Hle.
  - (* Sort *)
    rewrite andb_true_r. destruct child as [c'|]; simpl.
    + destruct (Hchild c' eq_refl) as [Hd He]. rewrite <- Hd.
      destruct (print c') as [out|e]; simpl.
      * split; [split; eauto | discriminate].
      * split; [split; intros [? ?]; discriminate|]. intros e' [= <-]. by apply He.
    + split; [split; [intros [? ?]; discriminate | discriminate]|]. by intros e [= <-].
Qed.

End Dump.

Section DumpOfPlans.
Context {Expr : Type} `{ExprOps Expr} `{ExprPrint Expr}.

(** X16.  Dumping what the planner returns.  For a plan returned by
    [optimize], [RootPlan::print] dereferences a null pointer exactly
    when the plan is an AggPlan built over no scanned table (its child is
    null and [AggPlan::print] reads it); for every other returned plan --
    a scanned table, or no aggregation -- the dump is defined. *)
Theorem dump_of_returned_plan (q : Query Expr) rp :
  optimize q = Ok rp ->
  (RootPlan_print rp = Err (Undefined NullDereference) <->
   scanned_entries q = [] /\ ~ no_aggregation q) /\
  (scanned_entries q <> [] \/ no_aggregation q ->
   exists out, RootPlan_print rp = Ok out).
Proof.
  intros Hrp. apply optimize_Ok_planned in Hrp as (_ & dest & _ & ->).
  unfold RootPlan_print. simpl.
  unfold planned_plan, aggregated_plan, joined_plan.
  destruct (bool_decide (get_num_aggs q = 0) && is_nullptr (get_having_predicate q)) eqn:Ht.
  - assert (Hn: no_aggregation q) by (by apply no_aggregation_test).
    destruct (scanned_entries q) as [|rte rest]; simpl.
    + split; [split; [discriminate | intros [_ ?]; done] | eauto].
    + split; [split; [discriminate | intros [? _]; done] | eauto].
  - assert (Hn: ~ no_aggregation q).
    { intros Hn. apply no_aggregation_test in Hn. congruence. }
    destruct (scanned_entries q) as [|rte rest]; simpl.
    + split; [done|]. intros [?|?]; done.
    + split; [split; [discriminate | intros [? _]; done] | eauto].
Qed.

End DumpOfPlans.

Lemma dump_of_returned_plan_witness :
  exists rp out, optimize Sql.group_query = Ok rp /\ RootPlan_print rp = Ok out.
Proof.
  assert (Hrp: exists rp, optimize Sql.group_query = Ok rp)
    by (eexists; vm_compute; reflexivity).
  destruct Hrp as [rp Hrp]. exists rp.
  destruct (dump_of_returned_plan Sql.group_query rp Hrp) as [_ Hdef].
  destruct Hdef as [out Hout]; [left; discriminate|].
  exists out. split; [exact Hrp | exact Hout].
Defined.

(** ** Column references outside the base scans *)

Section OutOfRangeReferences.
Context {Expr : Type} `{ExprOps Expr}.

(** X18.  A column reference whose range-table index is not a subscript
    of [base_scans] makes planning undefined: for a statement with a
    destination and no UNION link, if any column referenced in the target
    list, the join predicates, the group-by list or the HAVING predicate
    carries an index outside [0, number of scanned entries), [optimize]
    runs into undefined behaviour.  For an INSERT the scanned entries are
    one fewer than the range table, so a reference to its last
    range-table entry is always such a column. *)
Theorem reference_outside_base_scans (q : Query Expr) cv :
  has_destination q ->
  get_next_query q = None ->
  cv ∈ referenced_column_vars q (snd (fst (where_groups q))) ->
  ~ (0 <= get_rte_idx cv < Z.of_nat (length (scanned_entries q))) ->
  (exists ub, optimize q = Err (Undefined ub)) /\
  (get_stmt_type q = kINSERT ->
   length (scanned_entries q) = (length (get_rangetable q) - 1)%nat).
Proof.
  intros Hd Hn Hcv Hout. split.
  - assert (Hnb: ~ scan_stage_in_bounds q).
    { intros [_ Hc]. specialize (Hc cv Hcv).
      by rewrite build_base_scans_spec, length_fmap in Hc. }
    destruct (optimize_scans q Optimizer_init) as [o1|e] eqn:Hs.
    { exfalso. apply Hnb. apply optimize_scans_defined. eauto. }
    destruct (optimize_scans_Err q e Hs) as [ub ->]. exists ub.
    apply result_table_Ok in Hd as [dest Hd].
    unfold optimize. rewrite Hd. simpl. rewrite optimize_query_single by done.
    unfold optimize_current_query. by rewrite Hs.
  - intros Hi. unfold scanned_entries. rewrite Hi. simpl.
    destruct (get_rangetable q); simpl; lia.
Qed.

End OutOfRangeReferences.

Lemma reference_outside_base_scans_witness :
  get_rte_idx Sql.u_x = 1 /\
  length (scanned_entries Sql.insert_select) = 1%nat /\
  exists ub, optimize Sql.insert_select = Err (Undefined ub).
Proof.
  split; [reflexivity|]. split; [reflexivity|].
  refine (proj1 (reference_outside_base_scans Sql.insert_select Sql.u_x _ eq_refl _ _)).
  - right. split; [reflexivity | discriminate].
  - unfold referenced_column_vars. simpl. left.
  - simpl. lia.
Defined.
